(** * Solar-plus-storage sizing: a shallow embedding of [solar.py]

    The numeric kernel of the repository has four functions: [uptime]
    (time-stepped energy balance of a battery), [all_in_system_cost],
    [cost_and_elasticity] and [find_minimum_system_cost] (a bounded
    stochastic local search).

    Numbers.  The code computes with Python floats (binary64).  It is
    embedded twice, line by line the same:

    - the exact reading ([uptime], [all_in_system_cost], ... at top level)
      carries out over the rationals [Q] the arithmetic the code writes down;
      equality of numbers is [Qeq] (written [==]).  The theorems are proved
      over it.  A statement proved there transfers to the running code only
      when it names the expressions and the comparisons the code itself
      evaluates (a stored value is this quotient, this test failed, a charge
      stays under the cap of a [min]); whatever needs two different
      expressions to agree ([x * t / (l * t) = x / l], [t * n / 8760 = 1])
      holds up to rounding only.  Where a theorem says that a function
      returns on all sensible inputs, that is said of exact arithmetic: in
      binary64 a product can underflow to zero ([b64_underflow_raises]) or
      overflow.
    - the binary64 reading (module [B64]) runs the same code on Rocq's
      primitive floats, which are IEEE 754 binary64 with round to nearest
      even, as CPython and numba compute.  It is used to evaluate the code,
      and it is where the statements that rounding breaks are refuted.

    Errors.  A division by zero or an index out of range raises in Python;
    here the function returns [None].  Overflow does not raise: in binary64
    it yields an infinity, and later possibly a NaN.

    Randomness.  [random.uniform(a, b)] is [a + (b - a) * random()]; the
    stream of [random()] results is a parameter [rnd], and the number of
    draws consumed so far is part of the optimizer's state. *)

From Stdlib Require Import PrimFloat.
From Stdlib Require Uint63.
From Stdlib Require Import QArith Qminmax Lqa Lia.
From stdpp Require Import base option list.

Set Warnings "-inexact-float,-abstract-large-number".

Local Open Scope Q_scope.

(** ** Python primitives *)

(** [x < y] as a test. *)
Definition Qltb (x y : Q) : bool := negb (Qle_bool y x).

(** [x / y]; raises [ZeroDivisionError] when [y] is zero. *)
Definition pydiv (x y : Q) : option Q :=
  if Qeq_bool y 0 then None else Some (x / y).

(** [min(x, y)] and [max(x, y)] of two arguments: the first one is kept
    unless the second is strictly smaller (resp. larger). *)
Definition pymin (x y : Q) : Q := if Qltb y x then y else x.
Definition pymax (x y : Q) : Q := if Qltb x y then y else x.

(** [l[i] = v]; raises [IndexError] out of range. *)
Definition store (l : list Q) (i : nat) (v : Q) : option (list Q) :=
  if decide (i < length l)%nat then Some (<[i:=v]> l) else None.

(** [sum(l)]: left to right, from [0]. *)
Definition pysum (l : list Q) : Q := foldl Qplus 0 l.

(** [len(l)] as a number. *)
Definition len (l : list Q) : Q := inject_Z (Z.of_nat (length l)).

(** [for i in range(lo, lo + n): s = body(i, s)], stopping at the first
    error. *)
Fixpoint for_range {S : Type} (lo n : nat) (body : nat → S → option S) (s : S)
  : option S :=
  match n with
  | O => Some s
  | Datatypes.S n' => s' ← body lo s; for_range (Datatypes.S lo) n' body s'
  end.

(** ** [uptime] *)

(** The two arrays the simulation fills in. *)
Record arrays : Type := Arrays { battery : list Q; utilization : list Q }.

Definition hours_per_year : Q := 24 * 365.

(** [t_interval = 24.0 * 365.0 / len(sol)]. *)
Definition t_interval_of (sol : list Q) : option Q := pydiv hours_per_year (len sol).

(** The arrays before the loop. *)
Definition uptime_init (capacity : Q) (sol : list Q) : arrays :=
  Arrays (capacity :: replicate (length sol) 0) (replicate (length sol) 0).

(** One round of the loop of [uptime]. *)
Definition uptime_body (capacity load t_interval : Q) (sol : list Q)
    (i : nat) (st : arrays) : option arrays :=
  sol_interval ← sol !! i;
  let remaining_load := (load - sol_interval) * t_interval in
  if Qltb load sol_interval then
    utilization' ← store (utilization st) i 1;
    let excess_solar := sol_interval - load in
    b_i ← battery st !! i;
    battery' ← store (battery st) (S i) (pymin (b_i + t_interval * excess_solar) capacity);
    Some (Arrays battery' utilization')
  else
    b_i ← battery st !! i;
    if Qltb remaining_load b_i then
      utilization' ← store (utilization st) i 1;
      battery' ← store (battery st) (S i) (b_i - remaining_load);
      Some (Arrays battery' utilization')
    else
      u ← pydiv (sol_interval * t_interval + b_i) (load * t_interval);
      utilization' ← store (utilization st) i u;
      battery' ← store (battery st) (S i) 0;
      Some (Arrays battery' utilization').

(** [t_interval] and the arrays after the loop. *)
Definition uptime_loop (capacity load : Q) (sol : list Q) : option (Q * arrays) :=
  let st0 := uptime_init capacity sol in
  t_interval ← t_interval_of sol;
  st ← for_range 0 (length sol) (uptime_body capacity load t_interval sol) st0;
  Some (t_interval, st).

(** [batsum]: the number of positive entries of [battery[:-1]]. *)
Definition batsum_of (bat : list Q) : Q :=
  foldl (λ acc b, acc + (if Qltb 0 b then 1 else 0)) 0 (removelast bat).

(** The tuple [uptime] returns. *)
Definition uptime (capacity load : Q) (sol : list Q) : option (Q * Q * Q * Q) :=
  '(t_interval, st) ← uptime_loop capacity load sol;
  battery_fraction ← pydiv (batsum_of (battery st)) (len (battery st) - 1);
  Some (capacity, load, battery_fraction,
        t_interval * pysum (utilization st) / (24 * 365)).

(** Third and last component of that tuple. *)
Definition battery_uptime_fraction (r : Q * Q * Q * Q) : Q := r.1.2.
Definition load_served_fraction (r : Q * Q * Q * Q) : Q := r.2.

(** ** [all_in_system_cost] *)

Definition all_in_system_cost
    (solar_cost battery_cost load_cost battery_size array_size : Q)
    (sol : list Q) : option Q :=
  capacity_arg ← pydiv battery_size array_size;
  load_arg ← pydiv 1 array_size;
  '(capacity, load, battery_util, total_util) ← uptime capacity_arg load_arg sol;
  pydiv (capacity * battery_cost + solar_cost + load_cost * load)
        (load * total_util).

(** ** [cost_and_elasticity] *)

Definition cost_and_elasticity
    (solar_cost battery_cost load_cost battery_size array_size : Q)
    (sol : list Q) : option (Q * Q * Q * Q * Q) :=
  let size_to_cost := λ b a,
    all_in_system_cost solar_cost battery_cost load_cost b a sol in
  cost ← size_to_cost battery_size array_size;
  cost_battery ← size_to_cost (1.01 * battery_size + 0.01) array_size;
  cost_array ← size_to_cost battery_size (1.01 * array_size + 0.01);
  e_battery ← pydiv (cost - cost_battery) cost;
  e_array ← pydiv (cost - cost_array) cost;
  Some (cost, cost_battery, cost_array, e_battery, e_array).

(** ** [find_minimum_system_cost] *)

(** [uniform(a, b)] at position [pos] of the stream of draws. *)
Definition uniform (rnd : nat → Q) (a b : Q) (pos : nat) : Q * nat :=
  (a + (b - a) * rnd pos, S pos).

(** The variables the search loop updates, and the number of draws taken. *)
Record search : Type := Search {
  bi : Q; ai : Q; cost_min : Q; bi_min : Q; ai_min : Q; draws : nat
}.

Definition initial_size (load_cost : Q) : Q := pymin 10 (10 * load_cost / 5e6).

Definition initial_amplitude (load_cost : Q) : Q :=
  let amplitude := 10 + 70 * (load_cost / 5e6) in
  let amplitude :=
    if Qltb 7e5 load_cost && Qltb load_cost 13e5 then amplitude * 3 else amplitude in
  if Qltb 80e6 load_cost then amplitude * 0.5 else amplitude.

Definition search_init (load_cost : Q) (pos : nat) : search :=
  let bi := initial_size load_cost in
  let ai := initial_size load_cost in
  Search bi ai (10 ^ 10) bi ai pos.

(** One round of the search loop. *)
Definition search_body (solar_cost battery_cost load_cost amplitude : Q)
    (sol : list Q) (rnd : nat → Q) (i : nat) (s : search) : option search :=
  '(cost, cost_bat, cost_arr, dcost_bat, dcost_arr) ←
     cost_and_elasticity solar_cost battery_cost load_cost (bi s) (ai s) sol;
  let '(ai_min', bi_min', cost_min') :=
    if Qltb cost (cost_min s) then (ai s, bi s, cost)
    else (ai_min s, bi_min s, cost_min s) in
  let '(u_bat, pos) := uniform rnd 0.1 1 (draws s) in
  let bi' := pymax 0 (bi s + amplitude * u_bat * dcost_bat) in
  let '(u_arr, pos) := uniform rnd 0.1 1 pos in
  let ai' := pymax 0.01 (ai s + amplitude * u_arr * dcost_arr) in
  Some (Search bi' ai' cost_min' bi_min' ai_min' pos).

(** The search state after [n] rounds. *)
Definition search_loop (solar_cost battery_cost load_cost : Q) (sol : list Q)
    (rnd : nat → Q) (pos n : nat) : option search :=
  for_range 0 n
    (search_body solar_cost battery_cost load_cost
                 (initial_amplitude load_cost) sol rnd)
    (search_init load_cost pos).

(** The five tuples [find_minimum_system_cost] returns. *)
Record report : Type := Report {
  inputs : Q * Q * Q;
  best_sizes : Q * Q * Q;
  cost_breakdown : Q * Q * Q;
  totals : Q * Q * Q;
  ut : Q * Q * Q * Q
}.

(** The report, and the position of the stream of draws afterwards. *)
Definition find_minimum_system_cost (solar_cost battery_cost load_cost : Q)
    (sol : list Q) (rnd : nat → Q) (pos : nat) : option (report * nat) :=
  s ← search_loop solar_cost battery_cost load_cost sol rnd pos 100;
  capacity_arg ← pydiv (bi_min s) (ai_min s);
  load_arg ← pydiv 1 (ai_min s);
  ut ← uptime capacity_arg load_arg sol;
  let array_cost := solar_cost * ai_min s in
  let storage_cost := battery_cost * bi_min s in
  let total_cost := array_cost + storage_cost + load_cost in
  levelized ← pydiv total_cost (load_served_fraction ut);
  Some (Report (solar_cost, battery_cost, load_cost)
               (ai_min s, bi_min s, 1)
               (array_cost, storage_cost, load_cost)
               (array_cost + storage_cost, total_cost, levelized)
               ut,
        draws s).

(** The tracked best cost is not part of the report; its last total is the
    cost figure of the best sizes. *)
Definition levelized_cost (r : report) : Q := (totals r).2.

(** The numeric content of one round of [uptime]: from the sample [s] and the
    charge [b], the next charge and the utilization of the interval. *)
Definition dispatch (capacity load t_interval s b : Q) : Q * Q :=
  if Qltb load s then (pymin (b + t_interval * (s - load)) capacity, 1)
  else if Qltb ((load - s) * t_interval) b then (b - (load - s) * t_interval, 1)
  else (0, (s * t_interval + b) / (load * t_interval)).

(** The arrays keep the lengths they are allocated with. *)
Definition sized (n : nat) (st : arrays) : Prop :=
  length (battery st) = S n ∧ length (utilization st) = n.

(** [P] holds of the entries of [l] below index [k]. *)
Definition filled (P : Q → Prop) (k : nat) (l : list Q) : Prop :=
  ∀ j x, (j < k)%nat → l !! j = Some x → P x.

(** [R] relates the entries of [sol] and [l] at every index below [k]. *)
Definition filled_from (R : Q → Q → Prop) (k : nat) (sol l : list Q) : Prop :=
  ∀ j s x, (j < k)%nat → sol !! j = Some s → l !! j = Some x → R s x.

(** A stream of draws that is constant at one half. *)
Definition half_draws (n : nat) : Q := 1 # 2.

(** The arrays [st] hold the trajectory of [dispatch] over the first [k]
    intervals: [battery[0]] is the capacity, and round [i < k] has stored
    into [battery[i+1]] and [utilization[i]] what [dispatch] makes of
    [sol[i]] and [battery[i]], dividing in the third branch by a
    [load * t_interval] that is not zero. *)
Definition trajectory (capacity load t_interval : Q) (sol : list Q) (k : nat)
    (st : arrays) : Prop :=
  battery st !! 0%nat = Some capacity ∧
  ∀ i s b, (i < k)%nat → sol !! i = Some s → battery st !! i = Some b →
    battery st !! S i = Some (dispatch capacity load t_interval s b).1 ∧
    utilization st !! i = Some (dispatch capacity load t_interval s b).2 ∧
    (Qltb load s = false → Qltb ((load - s) * t_interval) b = false →
     ¬ load * t_interval == 0).

(** ** The binary64 reading

    The same four functions over primitive floats.  [x <? y] is the
    comparison of two floats (false when one is a NaN), [x =? 0] holds of
    both zeros. *)
Module B64.
Local Open Scope float_scope.

(** [x / y]; raises [ZeroDivisionError] when [y] is a zero. *)
Definition pydiv (x y : float) : option float :=
  if y =? 0 then None else Some (x / y).

(** [min(x, y)] and [max(x, y)]: the first argument is kept unless the second
    compares strictly smaller (resp. larger), so also when one is a NaN. *)
Definition pymin (x y : float) : float :=
  if y <? x then y else x.
Definition pymax (x y : float) : float :=
  if x <? y then y else x.

Definition store (l : list float) (i : nat) (v : float)
  : option (list float) :=
  if decide (i < length l)%nat then Some (<[i:=v]> l) else None.

(** [sum(l)]: left to right, from [0]. *)
Definition pysum (l : list float) : float :=
  foldl PrimFloat.add 0 l.

(** An [int] converted to a float. *)
Definition of_nat (n : nat) : float :=
  PrimFloat.of_uint63 (Uint63.of_Z (Z.of_nat n)).

Definition len (l : list float) : float := of_nat (length l).

Record arrays : Type :=
  Arrays { battery : list float; utilization : list float }.

Definition t_interval_of (sol : list float) : option float :=
  pydiv (24 * 365) (len sol).

Definition uptime_init (capacity : float) (sol : list float)
  : arrays :=
  Arrays (capacity :: replicate (length sol) 0) (replicate (length sol) 0).

Definition uptime_body (capacity load t_interval : float)
    (sol : list float) (i : nat) (st : arrays) : option arrays :=
  sol_interval ← sol !! i;
  let remaining_load := (load - sol_interval) * t_interval in
  if load <? sol_interval then
    utilization' ← store (utilization st) i 1;
    let excess_solar := sol_interval - load in
    b_i ← battery st !! i;
    battery' ← store (battery st) (S i) (pymin (b_i + t_interval * excess_solar) capacity);
    Some (Arrays battery' utilization')
  else
    b_i ← battery st !! i;
    if remaining_load <? b_i then
      utilization' ← store (utilization st) i 1;
      battery' ← store (battery st) (S i) (b_i - remaining_load);
      Some (Arrays battery' utilization')
    else
      u ← pydiv (sol_interval * t_interval + b_i) (load * t_interval);
      utilization' ← store (utilization st) i u;
      battery' ← store (battery st) (S i) 0;
      Some (Arrays battery' utilization').

Definition uptime_loop (capacity load : float)
    (sol : list float) : option (float * arrays) :=
  let st0 := uptime_init capacity sol in
  t_interval ← t_interval_of sol;
  st ← for_range 0 (length sol) (uptime_body capacity load t_interval sol) st0;
  Some (t_interval, st).

(** [batsum] is an [int]. *)
Definition batsum_of (bat : list float) : nat :=
  foldl (λ (acc : nat) (b : float),
           (acc + (if (0 <? b)%float then 1 else 0))%nat)
        0%nat (removelast bat).

Definition uptime (capacity load : float) (sol : list float)
  : option (float * float * float * float) :=
  '(t_interval, st) ← uptime_loop capacity load sol;
  battery_fraction ←
    pydiv (of_nat (batsum_of (battery st))) (of_nat (length (battery st) - 1));
  Some (capacity, load, battery_fraction,
        t_interval * pysum (utilization st) / (24 * 365)).

Definition battery_uptime_fraction
    (r : float * float * float * float)
  : float := r.1.2.
Definition load_served_fraction
    (r : float * float * float * float)
  : float := r.2.

Definition all_in_system_cost
    (solar_cost battery_cost load_cost battery_size array_size : float)
    (sol : list float) : option float :=
  capacity_arg ← pydiv battery_size array_size;
  load_arg ← pydiv 1 array_size;
  '(capacity, load, battery_util, total_util) ← uptime capacity_arg load_arg sol;
  pydiv (capacity * battery_cost + solar_cost + load_cost * load)
        (load * total_util).

Definition cost_and_elasticity
    (solar_cost battery_cost load_cost battery_size array_size : float)
    (sol : list float)
  : option (float * float * float
            * float * float) :=
  let size_to_cost := λ b a,
    all_in_system_cost solar_cost battery_cost load_cost b a sol in
  cost ← size_to_cost battery_size array_size;
  cost_battery ← size_to_cost (1.01 * battery_size + 0.01) array_size;
  cost_array ← size_to_cost battery_size (1.01 * array_size + 0.01);
  e_battery ← pydiv (cost - cost_battery) cost;
  e_array ← pydiv (cost - cost_array) cost;
  Some (cost, cost_battery, cost_array, e_battery, e_array).

Definition uniform (rnd : nat → float) (a b : float)
    (pos : nat) : float * nat :=
  (a + (b - a) * rnd pos, S pos).

Record search : Type := Search {
  bi : float; ai : float; cost_min : float;
  bi_min : float; ai_min : float; draws : nat
}.

Definition initial_size (load_cost : float) : float :=
  pymin 10 (10 * load_cost / 5e6).

Definition initial_amplitude (load_cost : float) : float :=
  let amplitude := 10 + 70 * (load_cost / 5e6) in
  let amplitude :=
    if (7e5 <? load_cost) && (load_cost <? 13e5) then amplitude * 3
    else amplitude in
  if 80e6 <? load_cost then amplitude * 0.5 else amplitude.

(** [cost_min = 10**10] is an [int] that is compared with floats. *)
Definition search_init (load_cost : float) (pos : nat) : search :=
  let bi := initial_size load_cost in
  let ai := initial_size load_cost in
  Search bi ai 1e10 bi ai pos.

Definition search_body
    (solar_cost battery_cost load_cost amplitude : float)
    (sol : list float) (rnd : nat → float) (i : nat)
    (s : search) : option search :=
  '(cost, cost_bat, cost_arr, dcost_bat, dcost_arr) ←
     cost_and_elasticity solar_cost battery_cost load_cost (bi s) (ai s) sol;
  let '(ai_min', bi_min', cost_min') :=
    if cost <? cost_min s then (ai s, bi s, cost)
    else (ai_min s, bi_min s, cost_min s) in
  let '(u_bat, pos) := uniform rnd 0.1 1 (draws s) in
  let bi' := pymax 0 (bi s + amplitude * u_bat * dcost_bat) in
  let '(u_arr, pos) := uniform rnd 0.1 1 pos in
  let ai' := pymax 0.01 (ai s + amplitude * u_arr * dcost_arr) in
  Some (Search bi' ai' cost_min' bi_min' ai_min' pos).

Definition search_loop (solar_cost battery_cost load_cost : float)
    (sol : list float) (rnd : nat → float) (pos n : nat)
  : option search :=
  for_range 0 n
    (search_body solar_cost battery_cost load_cost
                 (initial_amplitude load_cost) sol rnd)
    (search_init load_cost pos).

Record report : Type := Report {
  inputs : float * float * float;
  best_sizes : float * float * float;
  cost_breakdown : float * float * float;
  totals : float * float * float;
  ut : float * float * float * float
}.

Definition find_minimum_system_cost
    (solar_cost battery_cost load_cost : float)
    (sol : list float) (rnd : nat → float) (pos : nat)
  : option (report * nat) :=
  s ← search_loop solar_cost battery_cost load_cost sol rnd pos 100;
  capacity_arg ← pydiv (bi_min s) (ai_min s);
  load_arg ← pydiv 1 (ai_min s);
  ut ← uptime capacity_arg load_arg sol;
  let array_cost := solar_cost * ai_min s in
  let storage_cost := battery_cost * bi_min s in
  let total_cost := array_cost + storage_cost + load_cost in
  levelized ← pydiv total_cost (load_served_fraction ut);
  Some (Report (solar_cost, battery_cost, load_cost)
               (ai_min s, bi_min s, 1)
               (array_cost, storage_cost, load_cost)
               (array_cost + storage_cost, total_cost, levelized)
               ut,
        draws s).

Definition levelized_cost (r : report) : float := (totals r).2.

(** A stream of draws that is constant at one half. *)
Definition half_draws (n : nat) : float := 0.5.

End B64.

(** * Basic facts *)

Lemma Qltb_lt (x y : Q) : Qltb x y = true ↔ x < y.
Proof.
  unfold Qltb. rewrite negb_true_iff, <- not_true_iff_false, Qle_bool_iff.
  split; [apply Qnot_le_lt | apply Qlt_not_le].
Qed.

Lemma Qltb_ge (x y : Q) : Qltb x y = false ↔ y <= x.
Proof. unfold Qltb. rewrite negb_false_iff. apply Qle_bool_iff. Qed.

Ltac case_ltb :=
  match goal with
  | |- context [Qltb ?x ?y] =>
      let E := fresh "E" in
      destruct (Qltb x y) eqn:E;
      [apply Qltb_lt in E | apply Qltb_ge in E]
  end.

Lemma pydiv_Some (x y : Q) : ¬ y == 0 → pydiv x y = Some (x / y).
Proof.
  intros Hy. unfold pydiv. destruct (Qeq_bool y 0) eqn:E; [|done].
  apply Qeq_bool_eq in E. contradiction.
Qed.

Lemma pydiv_inv (x y z : Q) : pydiv x y = Some z → ¬ y == 0 ∧ z = x / y.
Proof.
  unfold pydiv. destruct (Qeq_bool y 0) eqn:E; [done|].
  intros [= <-]. split; [by apply Qeq_bool_neq | done].
Qed.

Lemma pydiv_zero (x y : Q) : y == 0 → pydiv x y = None.
Proof. intros Hy. unfold pydiv. by rewrite (Qeq_eq_bool _ _ Hy). Qed.

Lemma pymin_le_r (x y : Q) : pymin x y <= y.
Proof. unfold pymin. case_ltb; lra. Qed.

Lemma pymin_glb (x y z : Q) : z <= x → z <= y → z <= pymin x y.
Proof. unfold pymin. case_ltb; lra. Qed.

Lemma pymax_ge_l (x y : Q) : x <= pymax x y.
Proof. unfold pymax. case_ltb; lra. Qed.

Lemma store_Some (l : list Q) (i : nat) (v : Q) :
  (i < length l)%nat → store l i v = Some (<[i:=v]> l).
Proof. intros Hi. unfold store. by rewrite decide_True. Qed.

Lemma len_nil : len [] = 0.
Proof. reflexivity. Qed.

Lemma len_cons (x : Q) (l : list Q) : len (x :: l) == len l + 1.
Proof.
  unfold len. cbn [length]. rewrite Nat2Z.inj_succ, <- Z.add_1_r.
  by rewrite inject_Z_plus.
Qed.

Lemma len_nonneg (l : list Q) : 0 <= len l.
Proof.
  unfold len. change 0 with (inject_Z 0). rewrite <- Zle_Qle. lia.
Qed.

Lemma len_pos (l : list Q) : l ≠ [] → 0 < len l.
Proof.
  destruct l as [|x l]; [done|]. intros _.
  rewrite len_cons. pose proof (len_nonneg l). lra.
Qed.

Lemma len_eq (l k : list Q) : length l = length k → len l = len k.
Proof. unfold len. by intros ->. Qed.

(** ** Loops *)

Section ForRange.
Context {S : Type} (body : nat → S → option S).

(** An invariant kept by every round that returns holds when the loop
    returns. *)
Lemma for_range_partial (Inv : nat → S → Prop) (n lo : nat) (s s' : S) :
  Inv lo s →
  (∀ i a a', (lo ≤ i < lo + n)%nat → Inv i a → body i a = Some a' →
             Inv (Datatypes.S i) a') →
  for_range lo n body s = Some s' → Inv (lo + n)%nat s'.
Proof.
  revert lo s. induction n as [|n IH]; intros lo s H0 Hstep; cbn.
  - intros [= <-]. by rewrite Nat.add_0_r.
  - destruct (body lo s) as [a|] eqn:Ha; cbn; [|done]. intros Hrun.
    replace (lo + Datatypes.S n)%nat with (Datatypes.S lo + n)%nat by lia.
    apply (IH (Datatypes.S lo) a); [|intros i b b' Hi; apply Hstep; lia|done].
    apply (Hstep lo s a); [lia|done|done].
Qed.

(** When every round returns under the invariant, so does the loop. *)
Lemma for_range_total (Inv : nat → S → Prop) (n lo : nat) (s : S) :
  Inv lo s →
  (∀ i a, (lo ≤ i < lo + n)%nat → Inv i a →
          ∃ a', body i a = Some a' ∧ Inv (Datatypes.S i) a') →
  ∃ s', for_range lo n body s = Some s' ∧ Inv (lo + n)%nat s'.
Proof.
  revert lo s. induction n as [|n IH]; intros lo s H0 Hstep; cbn.
  - exists s. by rewrite Nat.add_0_r.
  - destruct (Hstep lo s) as (a & Ha & Hinv); [lia|done|].
    rewrite Ha; cbn.
    replace (lo + Datatypes.S n)%nat with (Datatypes.S lo + n)%nat by lia.
    apply IH; [done|]. intros i b Hi. apply Hstep. lia.
Qed.

(** The rounds of a loop split at any point. *)
Lemma for_range_split (n m lo : nat) (s : S) :
  for_range lo (n + m) body s =
  for_range lo n body s ≫= for_range (lo + n) m body.
Proof.
  revert lo s. induction n as [|n IH]; intros lo s; cbn.
  - by rewrite Nat.add_0_r.
  - destruct (body lo s) as [a|]; cbn; [|done].
    rewrite IH. by replace (Datatypes.S lo + n)%nat with (lo + Datatypes.S n)%nat by lia.
Qed.
End ForRange.

(** ** One round of [uptime] *)

Lemma uptime_init_sized (capacity : Q) (sol : list Q) :
  sized (length sol) (uptime_init capacity sol).
Proof. split; cbn; by rewrite length_replicate. Qed.

(** In range, a round stores the pair [dispatch] computes and nothing else;
    only the third branch divides, by [load * t_interval]. *)
Lemma uptime_body_spec (capacity load t s b : Q) (sol : list Q) (i : nat)
    (st : arrays) :
  sized (length sol) st →
  sol !! i = Some s → battery st !! i = Some b →
  (Qltb load s = false → Qltb ((load - s) * t) b = false → ¬ load * t == 0) →
  uptime_body capacity load t sol i st =
    Some (Arrays (<[S i := (dispatch capacity load t s b).1]> (battery st))
                 (<[i := (dispatch capacity load t s b).2]> (utilization st))).
Proof.
  intros [Hb Hu] Hs Hbi Hlt.
  assert (i < length sol)%nat as Hi by (by apply lookup_lt_Some in Hs).
  unfold uptime_body, dispatch. rewrite Hs; cbn. rewrite Hbi.
  destruct (Qltb load s); cbn.
  - rewrite !store_Some by lia. done.
  - destruct (Qltb ((load - s) * t) b); cbn.
    + rewrite !store_Some by lia. done.
    + rewrite pydiv_Some by auto. cbn. rewrite !store_Some by lia. done.
Qed.

Lemma uptime_body_sized (capacity load t : Q) (sol : list Q) (i : nat)
    (st st' : arrays) :
  sized (length sol) st → uptime_body capacity load t sol i st = Some st' →
  sized (length sol) st'.
Proof.
  intros [Hb Hu]. unfold uptime_body, store.
  intros H; repeat (simplify_option_eq || case_match);
    split; cbn; by rewrite length_insert.
Qed.

(** ** Bounds of [dispatch] *)

Lemma Qdiv_unit_interval (x y : Q) : 0 <= x → x <= y → 0 < y → 0 <= x / y <= 1.
Proof.
  intros Hx Hxy Hy. split.
  - apply Qle_shift_div_l; lra.
  - apply Qle_shift_div_r; lra.
Qed.

Lemma dispatch_bounds (capacity load t s b : Q) :
  0 <= capacity → 0 < load → 0 < t → 0 <= s → 0 <= b <= capacity →
  0 <= (dispatch capacity load t s b).1 <= capacity ∧
  0 <= (dispatch capacity load t s b).2.
Proof.
  intros Hc Hl Ht Hs Hb. unfold dispatch.
  case_ltb; [|case_ltb]; cbn.
  - split; [split|lra].
    + apply pymin_glb; nra.
    + apply pymin_le_r.
  - assert (0 <= (load - s) * t) by nra. lra.
  - split; [lra|]. apply Qle_shift_div_l; nra.
Qed.

(** ** Sums over the arrays *)

Lemma pysum_acc (l : list Q) (a : Q) : foldl Qplus a l == a + pysum l.
Proof.
  unfold pysum. revert a. induction l as [|x l IH]; intros a; cbn.
  - lra.
  - rewrite (IH (a + x)), (IH (0 + x)). lra.
Qed.

Lemma pysum_cons (x : Q) (l : list Q) : pysum (x :: l) == x + pysum l.
Proof. unfold pysum at 1. cbn. rewrite pysum_acc. lra. Qed.

Lemma batsum_acc (l : list Q) (a : Q) :
  foldl (λ acc b, acc + (if Qltb 0 b then 1 else 0)) a l ==
  a + foldl (λ acc b, acc + (if Qltb 0 b then 1 else 0)) 0 l.
Proof.
  revert a. induction l as [|x l IH]; intros a; cbn.
  - lra.
  - rewrite (IH (a + _)), (IH (0 + _)). lra.
Qed.

Lemma batsum_bounds (l : list Q) :
  0 <= foldl (λ acc b, acc + (if Qltb 0 b then 1 else 0)) 0 l <= len l.
Proof.
  induction l as [|x l IH].
  - rewrite len_nil. cbn. lra.
  - cbn. rewrite batsum_acc, len_cons. destruct (Qltb 0 x); lra.
Qed.

(** ** The interval length *)

Lemma t_interval_inv (sol : list Q) (t : Q) :
  t_interval_of sol = Some t →
  sol ≠ [] ∧ 0 < len sol ∧ 0 < t ∧ t * len sol == 24 * 365.
Proof.
  unfold t_interval_of, hours_per_year. intros [Hn ->]%pydiv_inv.
  assert (sol ≠ []) as Hne by (intros ->; by apply Hn).
  pose proof (len_pos sol Hne) as Hpos.
  split; [done|]. split; [done|]. split.
  - apply Qlt_shift_div_l; lra.
  - field. lra.
Qed.

Lemma t_interval_Some (sol : list Q) :
  sol ≠ [] → ∃ t, t_interval_of sol = Some t.
Proof.
  intros Hne. pose proof (len_pos sol Hne).
  eexists. unfold t_interval_of. apply pydiv_Some. lra.
Qed.

Lemma len_sized (l : list Q) (n : nat) :
  length l = S n → len l - 1 == inject_Z (Z.of_nat n).
Proof.
  intros Hl. unfold len. rewrite Hl, Nat2Z.inj_succ, <- Z.add_1_r, inject_Z_plus.
  change (inject_Z 1) with 1. lra.
Qed.

Lemma len_removelast (l : list Q) (n : nat) :
  length l = S n → len (removelast l) = inject_Z (Z.of_nat n).
Proof.
  intros Hl. unfold len. rewrite removelast_firstn_len, length_take, Hl.
  f_equal. lia.
Qed.

(** In exact arithmetic the served fraction is the mean of the utilization
    array. *)
Lemma served_mean (t x n : Q) :
  0 < n → t * n == 24 * 365 → t * x / (24 * 365) == x / n.
Proof. intros Hn Ht. rewrite <- Ht. field. split; [lra|]. nra. Qed.

(** ** When no round divides by zero, the loop of [uptime] returns *)

Lemma sized_insert (n i j : nat) (b u : Q) (st : arrays) :
  sized n st → sized n (Arrays (<[i:=b]> (battery st)) (<[j:=u]> (utilization st))).
Proof. intros [Hb Hu]. split; cbn; by rewrite length_insert. Qed.

Lemma uptime_body_total (capacity load t : Q) (sol : list Q) (i : nat)
    (st : arrays) :
  ¬ load * t == 0 → (i < length sol)%nat → sized (length sol) st →
  ∃ s b, sol !! i = Some s ∧ battery st !! i = Some b ∧
    uptime_body capacity load t sol i st =
      Some (Arrays (<[S i := (dispatch capacity load t s b).1]> (battery st))
                   (<[i := (dispatch capacity load t s b).2]> (utilization st))).
Proof.
  intros Hlt Hi Hsz.
  destruct (lookup_lt_is_Some_2 sol i Hi) as [s Hs].
  destruct (lookup_lt_is_Some_2 (battery st) i) as [b Hb];
    [destruct Hsz; lia|].
  exists s, b. split; [done|]. split; [done|]. by apply uptime_body_spec.
Qed.

(** The proof rule of the loop of [uptime]: a property of the arrays that
    holds before the loop and is kept by every store of a [dispatch] pair
    holds of the arrays the loop returns, and the loop does return. *)
Lemma uptime_loop_rule (P : nat → arrays → Prop) (capacity load t : Q)
    (sol : list Q) :
  t_interval_of sol = Some t →
  P 0%nat (uptime_init capacity sol) →
  (∀ i a s b, (i < length sol)%nat → sized (length sol) a → P i a →
     sol !! i = Some s → battery a !! i = Some b →
     (Qltb load s = false → Qltb ((load - s) * t) b = false → ¬ load * t == 0) ∧
     P (S i) (Arrays (<[S i := (dispatch capacity load t s b).1]> (battery a))
                     (<[i := (dispatch capacity load t s b).2]> (utilization a)))) →
  ∃ st, uptime_loop capacity load sol = Some (t, st) ∧
        sized (length sol) st ∧ P (length sol) st.
Proof.
  intros Ht H0 Hstep.
  destruct (for_range_total (uptime_body capacity load t sol)
              (λ i st, sized (length sol) st ∧ P i st) (length sol) 0
              (uptime_init capacity sol)) as (st & Hrun & Hsz & HP).
  - split; [apply uptime_init_sized | done].
  - intros i a Hi [Ha HP].
    destruct (lookup_lt_is_Some_2 sol i) as [s Hs]; [lia|].
    destruct (lookup_lt_is_Some_2 (battery a) i) as [b Hb];
      [destruct Ha; lia|].
    destruct (Hstep i a s b) as [Hdiv HP']; [lia|done..|].
    eexists. split; [by apply uptime_body_spec|].
    split; [by apply sized_insert | done].
  - exists st. unfold uptime_loop. rewrite Ht; cbn. rewrite Hrun; cbn. done.
Qed.

Lemma uptime_loop_total (capacity load : Q) (sol : list Q) :
  sol ≠ [] → ¬ load == 0 →
  ∃ t st, uptime_loop capacity load sol = Some (t, st) ∧ sized (length sol) st.
Proof.
  intros Hne Hl. destruct (t_interval_Some sol Hne) as [t Ht].
  destruct (t_interval_inv sol t Ht) as (_ & _ & Htpos & _).
  destruct (for_range_total (uptime_body capacity load t sol)
              (λ _ st, sized (length sol) st) (length sol) 0
              (uptime_init capacity sol)) as (st & Hrun & Hsz).
  - apply uptime_init_sized.
  - intros i a Hi Ha.
    destruct (uptime_body_total capacity load t sol i a) as (s & b & _ & _ & ->);
      [nra|lia|done|].
    eexists. split; [done|]. by apply sized_insert.
  - exists t, st. unfold uptime_loop. rewrite Ht; cbn. rewrite Hrun; cbn. done.
Qed.

Lemma uptime_loop_sized (capacity load t : Q) (sol : list Q) (st : arrays) :
  uptime_loop capacity load sol = Some (t, st) → sized (length sol) st.
Proof.
  unfold uptime_loop. destruct (t_interval_of sol) as [t'|]; cbn; [|done].
  destruct (for_range _ _ _ _) as [st'|] eqn:Hrun; cbn; [|done].
  intros [= <- <-].
  apply (for_range_partial _ (λ _ a, sized (length sol) a) _ _ _ _
           (uptime_init_sized capacity sol)) in Hrun; [done|].
  intros i a a' _ Ha Hbody. by eapply uptime_body_sized.
Qed.

(** [uptime] returns exactly when its loop does. *)
Lemma uptime_of_loop (capacity load t : Q) (sol : list Q) (st : arrays) :
  uptime_loop capacity load sol = Some (t, st) →
  uptime capacity load sol =
    Some (capacity, load, batsum_of (battery st) / (len (battery st) - 1),
          t * pysum (utilization st) / (24 * 365)).
Proof.
  intros Hloop. pose proof (uptime_loop_sized _ _ _ _ _ Hloop) as [Hb Hu].
  unfold uptime. rewrite Hloop; cbn.
  assert (sol ≠ []) as Hne.
  { unfold uptime_loop in Hloop.
    destruct (t_interval_of sol) as [t'|] eqn:Ht; [|done].
    by apply t_interval_inv in Ht as [? _]. }
  rewrite pydiv_Some; [done|].
  rewrite (len_sized _ _ Hb). pose proof (len_pos sol Hne). unfold len in *. lra.
Qed.

Lemma uptime_inv (capacity load : Q) (sol : list Q) (r : Q * Q * Q * Q) :
  uptime capacity load sol = Some r →
  ∃ t st, uptime_loop capacity load sol = Some (t, st) ∧
    r = (capacity, load, batsum_of (battery st) / (len (battery st) - 1),
         t * pysum (utilization st) / (24 * 365)).
Proof.
  intros Hr. destruct (uptime_loop capacity load sol) as [[t st]|] eqn:Hloop.
  - exists t, st. split; [done|].
    rewrite (uptime_of_loop _ _ _ _ _ Hloop) in Hr. congruence.
  - unfold uptime in Hr. rewrite Hloop in Hr. done.
Qed.

(** ** Properties of the entries written so far *)

Lemma filled_insert_next (P : Q → Prop) (k : nat) (l : list Q) (v : Q) :
  filled P k l → P v → filled P (S k) (<[k:=v]> l).
Proof.
  intros Hl Hv j x Hj [(_ & <- & _)|[Hne Hx]]%list_lookup_insert_Some; [done|].
  apply (Hl j); [lia|done].
Qed.

Lemma filled_all (P : Q → Prop) (k : nat) (l : list Q) :
  filled P k l → (length l ≤ k)%nat → Forall P l.
Proof.
  intros Hl Hk. apply Forall_lookup. intros j x Hx. apply (Hl j); [|done].
  apply lookup_lt_Some in Hx. lia.
Qed.

Lemma filled_from_insert_next (R : Q → Q → Prop) (k : nat) (sol l : list Q)
    (s v : Q) :
  filled_from R k sol l → sol !! k = Some s → R s v →
  filled_from R (S k) sol (<[k:=v]> l).
Proof.
  intros Hl Hs Hv j a x Hj Ha [(<- & <- & _)|[Hne Hx]]%list_lookup_insert_Some.
  - by replace a with s by congruence.
  - apply (Hl j); [lia|done|done].
Qed.

Lemma Forall_removelast (P : Q → Prop) (l : list Q) :
  Forall P l → Forall P (removelast l).
Proof. intros Hl. rewrite removelast_firstn_len. by apply Forall_take. Qed.

Lemma pysum_zeros (l : list Q) : Forall (λ u, u == 0) l → pysum l == 0.
Proof.
  induction 1 as [|x l Hx _ IH]; [done|]. rewrite pysum_cons, Hx, IH. lra.
Qed.

Lemma pysum_ones (l : list Q) : Forall (λ u, u == 1) l → pysum l == len l.
Proof.
  induction 1 as [|x l Hx _ IH]; [done|].
  rewrite pysum_cons, len_cons, Hx, IH. lra.
Qed.

Lemma batsum_positive (l : list Q) :
  Forall (λ b, 0 < b) l →
  foldl (λ acc b, acc + (if Qltb 0 b then 1 else 0)) 0 l == len l.
Proof.
  induction 1 as [|x l Hx _ IH]; [done|].
  cbn. rewrite batsum_acc, len_cons, IH.
  apply Qltb_lt in Hx. rewrite Hx. lra.
Qed.

Lemma batsum_empty (l : list Q) :
  Forall (λ b, b == 0) l →
  foldl (λ acc b, acc + (if Qltb 0 b then 1 else 0)) 0 l == 0.
Proof.
  induction 1 as [|x l Hx _ IH]; [done|].
  cbn. rewrite batsum_acc, IH.
  assert (Qltb 0 x = false) as -> by (apply Qltb_ge; lra). lra.
Qed.

(** The loop that returned ran with the interval length of the series. *)
Lemma uptime_loop_interval (capacity load t : Q) (sol : list Q) (st : arrays) :
  uptime_loop capacity load sol = Some (t, st) → t_interval_of sol = Some t.
Proof.
  unfold uptime_loop. destruct (t_interval_of sol); [|done]. cbn.
  destruct (for_range _ _ _ _); [|done]. cbn. congruence.
Qed.

(** ** The arrays are the trajectory of [dispatch] *)

(** What a round that returns has read and stored. *)
Lemma uptime_body_inv (capacity load t : Q) (sol : list Q) (i : nat)
    (st st' : arrays) :
  uptime_body capacity load t sol i st = Some st' →
  ∃ s b, sol !! i = Some s ∧ battery st !! i = Some b ∧
    (i < length (utilization st))%nat ∧ (S i < length (battery st))%nat ∧
    (Qltb load s = false → Qltb ((load - s) * t) b = false →
     ¬ load * t == 0) ∧
    st' = Arrays (<[S i := (dispatch capacity load t s b).1]> (battery st))
                 (<[i := (dispatch capacity load t s b).2]> (utilization st)).
Proof.
  unfold uptime_body, dispatch, store.
  destruct (sol !! i) as [s|] eqn:Hs; cbn; [|done].
  destruct (Qltb load s) eqn:E1.
  - destruct (decide (i < length (utilization st))%nat) as [Hi|]; cbn; [|done].
    destruct (battery st !! i) as [b|] eqn:Hb; cbn; [|done].
    destruct (decide (S i < length (battery st))%nat) as [Hi'|]; cbn; [|done].
    intros [= <-]. exists s, b. rewrite E1. by repeat split.
  - destruct (battery st !! i) as [b|] eqn:Hb; cbn; [|done].
    destruct (Qltb ((load - s) * t) b) eqn:E2.
    + destruct (decide (i < length (utilization st))%nat) as [Hi|]; cbn; [|done].
      destruct (decide (S i < length (battery st))%nat) as [Hi'|]; cbn; [|done].
      intros [= <-]. exists s, b. rewrite E1, E2. by repeat split.
    + destruct (pydiv _ _) as [u|] eqn:Eu; cbn; [|done].
      apply pydiv_inv in Eu as [Hd ->].
      destruct (decide (i < length (utilization st))%nat) as [Hi|]; cbn; [|done].
      destruct (decide (S i < length (battery st))%nat) as [Hi'|]; cbn; [|done].
      intros [= <-]. exists s, b. rewrite E1, E2. by repeat split.
Qed.

Lemma trajectory_step (capacity load t s b : Q) (sol : list Q) (i : nat)
    (st : arrays) :
  sol !! i = Some s → battery st !! i = Some b →
  (i < length (utilization st))%nat → (S i < length (battery st))%nat →
  (Qltb load s = false → Qltb ((load - s) * t) b = false → ¬ load * t == 0) →
  trajectory capacity load t sol i st →
  trajectory capacity load t sol (S i)
    (Arrays (<[S i := (dispatch capacity load t s b).1]> (battery st))
            (<[i := (dispatch capacity load t s b).2]> (utilization st))).
Proof.
  intros Hs Hb Hi Hi' Hd [H0 Htr]. split; cbn [battery utilization].
  - by rewrite list_lookup_insert_ne.
  - intros j sj bj Hj Hsj. rewrite list_lookup_insert_ne by lia. intros Hbj.
    destruct (decide (j = i)) as [->|Hne].
    + replace sj with s by congruence. replace bj with b by congruence.
      by rewrite !list_lookup_insert_eq.
    + rewrite !list_lookup_insert_ne by lia. apply Htr; [lia|done..].
Qed.

(** Whenever the loop returns, it ran with the interval length of the
    series, the arrays have the lengths they were allocated with, and they
    hold the whole trajectory. *)
Lemma uptime_loop_trajectory (capacity load t : Q) (sol : list Q) (st : arrays) :
  uptime_loop capacity load sol = Some (t, st) →
  t_interval_of sol = Some t ∧ sized (length sol) st ∧
  trajectory capacity load t sol (length sol) st.
Proof.
  intros Hrun. pose proof (uptime_loop_interval _ _ _ _ _ Hrun) as Ht.
  split; [done|]. unfold uptime_loop in Hrun. rewrite Ht in Hrun. cbn in Hrun.
  destruct (for_range _ _ _ _) as [st'|] eqn:Hloop; cbn in Hrun; [|done].
  injection Hrun as <-.
  apply (for_range_partial _
           (λ i a, sized (length sol) a ∧ trajectory capacity load t sol i a))
    in Hloop; [done|..].
  - split; [apply uptime_init_sized|]. split; [done|]. intros; lia.
  - intros i a a' _ [Hsz Htr]
      (s & b & Hs & Hb & Hi & Hi' & Hd & ->)%uptime_body_inv.
    split; [by apply sized_insert | by apply trajectory_step].
Qed.

(** A property of the capacity that every step of [dispatch] keeps holds of
    every charge of the trajectory. *)
Lemma trajectory_charges (P : Q → Prop) (capacity load t : Q) (sol : list Q)
    (st : arrays) :
  sized (length sol) st → trajectory capacity load t sol (length sol) st →
  P capacity →
  (∀ i s b, sol !! i = Some s → P b → P (dispatch capacity load t s b).1) →
  ∀ i b, battery st !! i = Some b → P b.
Proof.
  intros [Hlb _] [H0 Htr] Hc Hstep i.
  induction i as [|i IH]; intros b Hb.
  - by replace b with capacity by congruence.
  - pose proof (lookup_lt_Some _ _ _ Hb) as Hi.
    destruct (lookup_lt_is_Some_2 sol i) as [s Hs]; [lia|].
    destruct (lookup_lt_is_Some_2 (battery st) i) as [b0 Hb0]; [lia|].
    destruct (Htr i s b0) as [Hnext _]; [by apply lookup_lt_Some in Hs|done..|].
    replace b with (dispatch capacity load t s b0).1 by congruence.
    apply (Hstep i); [done|]. by apply IH.
Qed.

(** The same for two trajectories over series of one length. *)
Lemma trajectory_charges_rel (R : Q → Q → Prop) (c1 l1 c2 l2 t : Q)
    (sol1 sol2 : list Q) (st1 st2 : arrays) :
  length sol1 = length sol2 →
  sized (length sol1) st1 → trajectory c1 l1 t sol1 (length sol1) st1 →
  sized (length sol2) st2 → trajectory c2 l2 t sol2 (length sol2) st2 →
  R c1 c2 →
  (∀ i s1 s2 b1 b2, sol1 !! i = Some s1 → sol2 !! i = Some s2 → R b1 b2 →
     R (dispatch c1 l1 t s1 b1).1 (dispatch c2 l2 t s2 b2).1) →
  Forall2 R (battery st1) (battery st2).
Proof.
  intros Hlen [Hlb1 _] [H01 Htr1] [Hlb2 _] [H02 Htr2] Hc Hstep.
  apply Forall2_same_length_lookup. split; [lia|].
  intros i. induction i as [|i IH]; intros b1 b2 Hb1 Hb2.
  - replace b1 with c1 by congruence. by replace b2 with c2 by congruence.
  - pose proof (lookup_lt_Some _ _ _ Hb1) as Hi.
    destruct (lookup_lt_is_Some_2 sol1 i) as [s1 Hs1]; [lia|].
    destruct (lookup_lt_is_Some_2 sol2 i) as [s2 Hs2]; [lia|].
    destruct (lookup_lt_is_Some_2 (battery st1) i) as [a1 Ha1]; [lia|].
    destruct (lookup_lt_is_Some_2 (battery st2) i) as [a2 Ha2]; [lia|].
    destruct (Htr1 i s1 a1) as [Hn1 _]; [by apply lookup_lt_Some in Hs1|done..|].
    destruct (Htr2 i s2 a2) as [Hn2 _]; [by apply lookup_lt_Some in Hs2|done..|].
    replace b1 with (dispatch c1 l1 t s1 a1).1 by congruence.
    replace b2 with (dispatch c2 l2 t s2 a2).1 by congruence.
    apply (Hstep i); [done..|]. by apply IH.
Qed.

(** What the trajectory says of interval [i]. *)
Lemma trajectory_at (capacity load t : Q) (sol : list Q) (st : arrays) (i : nat)
    (s : Q) :
  sized (length sol) st → trajectory capacity load t sol (length sol) st →
  sol !! i = Some s →
  ∃ b, battery st !! i = Some b ∧
    battery st !! S i = Some (dispatch capacity load t s b).1 ∧
    utilization st !! i = Some (dispatch capacity load t s b).2 ∧
    (Qltb load s = false → Qltb ((load - s) * t) b = false →
     ¬ load * t == 0).
Proof.
  intros [Hlb _] [_ Htr] Hs. pose proof (lookup_lt_Some _ _ _ Hs) as Hi.
  destruct (lookup_lt_is_Some_2 (battery st) i) as [b Hb]; [lia|].
  exists b. split; [done|]. by apply Htr.
Qed.

(** ** The only divisor of the loop *)

(** The loop divides by [load * t_interval] only: when that product is not
    zero, [uptime] returns on a non-empty series. *)
Lemma uptime_returns (capacity load t : Q) (sol : list Q) :
  t_interval_of sol = Some t → ¬ load * t == 0 →
  ∃ r, uptime capacity load sol = Some r.
Proof.
  intros Ht Hlt.
  destruct (for_range_total (uptime_body capacity load t sol)
              (λ _ st, sized (length sol) st) (length sol) 0
              (uptime_init capacity sol)) as (st & Hrun & Hsz).
  - apply uptime_init_sized.
  - intros i a Hi Ha.
    destruct (uptime_body_total capacity load t sol i a) as (s & b & _ & _ & ->);
      [done|lia|done|].
    eexists. split; [done|]. by apply sized_insert.
  - eexists. apply (uptime_of_loop _ _ t _ st).
    unfold uptime_loop. rewrite Ht; cbn. rewrite Hrun; cbn. done.
Qed.

(** ** The charge stays in range *)

(** The next charge lies between zero and the capacity: the first branch
    caps it with [min], the second subtracts less than the charge, the third
    stores zero. *)
Lemma dispatch_charge_bounds (capacity load t s b : Q) :
  0 <= capacity → 0 < t → 0 <= b <= capacity →
  0 <= (dispatch capacity load t s b).1 <= capacity.
Proof.
  intros Hc Ht Hb. unfold dispatch. case_ltb; [|case_ltb]; cbn.
  - split; [apply pymin_glb; nra | apply pymin_le_r].
  - assert (0 <= (load - s) * t) by nra. lra.
  - lra.
Qed.

(** The utilization a round stores: one, or the quotient of the third
    branch. *)
Lemma dispatch_utilization (capacity load t s b : Q) :
  (dispatch capacity load t s b).2 = 1 ∨
  (s <= load ∧ b <= (load - s) * t ∧
   (dispatch capacity load t s b).2 = (s * t + b) / (load * t)).
Proof.
  unfold dispatch. case_ltb; [|case_ltb]; cbn; auto.
Qed.

Lemma batsum_of_unit_interval (bat : list Q) (n : nat) :
  length bat = S n → (0 < n)%nat →
  0 <= batsum_of bat / (len bat - 1) <= 1.
Proof.
  intros Hl Hn. rewrite (len_sized _ _ Hl).
  pose proof (batsum_bounds (removelast bat)) as Hbs.
  rewrite (len_removelast _ _ Hl) in Hbs.
  assert (0 < inject_Z (Z.of_nat n)).
  { change 0 with (inject_Z 0). rewrite <- Zlt_Qlt. lia. }
  apply Qdiv_unit_interval; unfold batsum_of; lra.
Qed.

(** C1, as the code has it.  With a non-negative capacity, a positive load
    and non-negative solar samples, whenever the loop of [uptime] returns:
    [battery[0] = capacity] and every charge lies within [0, capacity];
    every utilization is either [1] or, where the charge did not cover the
    remaining load, the quotient
    [(sol[i] * t_interval + battery[i]) / (load * t_interval)] of the third
    branch; the battery fraction [uptime] returns lies within [0, 1].
    [uptime] returns on a non-empty series whenever [load * t_interval] is
    not zero.  (That the quotient, and with it the served fraction, stays
    within [0, 1] holds in exact arithmetic only and is not stated.) *)
Theorem uptime_within_bounds (capacity load : Q) (sol : list Q) :
  0 <= capacity → 0 < load → Forall (λ s, 0 <= s) sol →
  (∀ t st, uptime_loop capacity load sol = Some (t, st) →
     length (battery st) = S (length sol) ∧
     length (utilization st) = length sol ∧
     battery st !! 0%nat = Some capacity ∧
     (∀ i b, battery st !! i = Some b → 0 <= b <= capacity) ∧
     (∀ i u, utilization st !! i = Some u →
        u = 1 ∨
        ∃ s b, sol !! i = Some s ∧ battery st !! i = Some b ∧
               s <= load ∧ b <= (load - s) * t ∧
               u = (s * t + b) / (load * t))) ∧
  (∀ r, uptime capacity load sol = Some r →
     0 <= battery_uptime_fraction r <= 1) ∧
  (sol ≠ [] →
     ∃ t, t_interval_of sol = Some t ∧
          (¬ load * t == 0 → ∃ r, uptime capacity load sol = Some r)).
Proof.
  intros Hc _ _. split; [|split].
  - intros t st (Ht & Hsz & Htr)%uptime_loop_trajectory.
    destruct (t_interval_inv sol t Ht) as (_ & _ & Htpos & _).
    destruct Hsz as [Hlb Hlu]. split; [done|]. split; [done|].
    split; [by destruct Htr|]. split.
    + apply (trajectory_charges (λ b, 0 <= b <= capacity) capacity load t sol);
        [done|done|lra|].
      intros i s b _ Hb. by apply dispatch_charge_bounds.
    + intros i u Hu. pose proof (lookup_lt_Some _ _ _ Hu) as Hi.
      destruct (lookup_lt_is_Some_2 sol i) as [s Hs]; [lia|].
      destruct (trajectory_at capacity load t sol st i s)
        as (b & Hb & _ & Hu' & _); [done..|].
      replace u with (dispatch capacity load t s b).2 by congruence.
      destruct (dispatch_utilization capacity load t s b)
        as [->|(Hs' & Hb' & ->)]; [by left|].
      right. by exists s, b.
  - intros r (t & st & Hrun & ->)%uptime_inv.
    pose proof (uptime_loop_sized _ _ _ _ _ Hrun) as [Hlb _].
    apply uptime_loop_interval, t_interval_inv in Hrun as (Hne & _).
    unfold battery_uptime_fraction; cbn.
    apply (batsum_of_unit_interval _ (length sol)); [done|].
    destruct sol; [done|cbn; lia].
  - intros Hne. destruct (t_interval_Some sol Hne) as [t Ht].
    exists t. split; [done|]. by apply uptime_returns.
Qed.

(** The theorem at a three-sample series: the charges are [1], [1], [0],
    [0], and the last interval is served by the quotient of the third
    branch. *)
Lemma uptime_within_bounds_witness :
  ∃ t st r,
    uptime_loop 1 1 [2; 0; 1 # 2] = Some (t, st) ∧
    (∀ i b, battery st !! i = Some b → 0 <= b <= 1) ∧
    uptime 1 1 [2; 0; 1 # 2] = Some r ∧
    0 <= battery_uptime_fraction r <= 1.
Proof.
  assert (0 <= 1) as Hc by lra.
  assert (0 < 1) as Hl by lra.
  assert (Forall (λ s, 0 <= s) [2; 0; 1 # 2]) as Hsol
    by (repeat constructor; lra).
  destruct (uptime_within_bounds 1 1 [2; 0; 1 # 2] Hc Hl Hsol)
    as (Hloop & Hr & Hex).
  destruct (uptime_loop 1 1 [2; 0; 1 # 2]) as [[t st]|] eqn:E;
    [|vm_compute in E; discriminate].
  destruct (Hloop t st eq_refl) as (_ & _ & _ & Hbat & _).
  destruct Hex as (t' & Ht' & Hret); [discriminate|].
  destruct Hret as [r Hrun].
  { vm_compute in Ht'. injection Ht' as <-. vm_compute. discriminate. }
  exists t, st, r. split; [reflexivity|]. split; [exact Hbat|].
  split; [exact Hrun|]. exact (Hr r Hrun).
Defined.

(** C1, as it is worded, fails on the code as it runs.  In binary64,
    [uptime(87.6, 0.8, [0.79])] takes the third branch and stores the
    utilization [7008.000000000001 / 7008.0 = 1.0000000000000002 > 1], which
    is also the served fraction it returns; and [uptime(0, 1e305, [1e305])]
    divides an infinity by an infinity: the served fraction is a NaN, neither
    at least [0] nor at most [1]. *)
Lemma uptime_within_bounds_counterexample :
  (∃ t st u r,
     B64.uptime_loop 87.6 0.8 [0.79%float] = Some (t, st) ∧
     B64.utilization st !! 0%nat = Some u ∧ (1 <? u)%float = true ∧
     B64.uptime 87.6 0.8 [0.79%float] = Some r ∧
     (1 <? B64.load_served_fraction r)%float = true) ∧
  (∃ r, B64.uptime 0 1e305 [1e305%float] = Some r ∧
        (0 <=? B64.load_served_fraction r)%float = false ∧
        (B64.load_served_fraction r <=? 1)%float = false).
Proof.
  split.
  - eexists _, _, _, _. split; [vm_compute; reflexivity|].
    split; [reflexivity|]. split; [vm_compute; reflexivity|].
    split; vm_compute; reflexivity.
  - eexists. split; [vm_compute; reflexivity|]. split; vm_compute; reflexivity.
Qed.

(** ** A battery of capacity zero *)

(** With no capacity and no charge the next charge is zero, the first branch
    stores a utilization of one and the third its quotient; the second
    branch is not taken. *)
Lemma dispatch_no_battery (capacity load t s b : Q) :
  capacity == 0 → b == 0 → 0 < t →
  (dispatch capacity load t s b).1 == 0 ∧
  (load < s → (dispatch capacity load t s b).2 = 1) ∧
  (s <= load →
     (dispatch capacity load t s b).2 = (s * t + b) / (load * t)).
Proof.
  intros Hc Hb Ht. unfold dispatch. case_ltb; [|case_ltb]; cbn.
  - split; [unfold pymin; case_ltb; nra|]. split; [done|]. intros; lra.
  - exfalso. nra.
  - split; [done|]. split; [intros; lra|]. done.
Qed.


(** C7, as the code has it.  With capacity zero, a positive load and
    non-negative samples, whenever the loop of [uptime] returns: every
    charge is zero; the utilization of interval [i] is [1] when
    [sol[i] > load], and otherwise the quotient
    [(sol[i] * t_interval + battery[i]) / (load * t_interval)] the third
    branch computes, with [battery[i]] zero (which is [sol[i] / load] up to
    rounding); on a series of zeros the served fraction [uptime] returns is
    zero.  [uptime] returns on a non-empty series whenever
    [load * t_interval] is not zero. *)
Theorem uptime_zero_capacity (capacity load : Q) (sol : list Q) :
  capacity == 0 → 0 < load → Forall (λ s, 0 <= s) sol →
  (∀ t st, uptime_loop capacity load sol = Some (t, st) →
     (∀ i b, battery st !! i = Some b → b == 0) ∧
     (∀ i s, sol !! i = Some s →
        ∃ u b, utilization st !! i = Some u ∧ battery st !! i = Some b ∧
               (load < s → u = 1) ∧
               (s <= load → u = (s * t + b) / (load * t)))) ∧
  (Forall (λ s, s == 0) sol →
     ∀ r, uptime capacity load sol = Some r → load_served_fraction r == 0) ∧
  (sol ≠ [] →
     ∃ t, t_interval_of sol = Some t ∧
          (¬ load * t == 0 → ∃ r, uptime capacity load sol = Some r)).
Proof.
  intros Hc Hl _.
  assert (∀ t st, uptime_loop capacity load sol = Some (t, st) →
            sized (length sol) st ∧
            (∀ i b, battery st !! i = Some b → b == 0) ∧
            (∀ i s, sol !! i = Some s →
               ∃ u b, utilization st !! i = Some u ∧ battery st !! i = Some b ∧
                      (load < s → u = 1) ∧
                      (s <= load → u = (s * t + b) / (load * t)))) as Hloop.
  { intros t st (Ht & Hsz & Htr)%uptime_loop_trajectory.
    destruct (t_interval_inv sol t Ht) as (_ & _ & Htpos & _).
    assert (∀ i b, battery st !! i = Some b → b == 0) as Hbat.
    { apply (trajectory_charges (λ b, b == 0) capacity load t sol);
        [done|done|done|].
      intros i s b _ Hb.
      by destruct (dispatch_no_battery capacity load t s b) as [H _]. }
    split; [done|]. split; [done|]. intros i s Hs.
    destruct (trajectory_at capacity load t sol st i s)
      as (b & Hb & _ & Hu & _); [done..|].
    eexists _, b. split; [done|]. split; [done|].
    destruct (dispatch_no_battery capacity load t s b) as (_ & H1 & H3);
      try done.
    by apply (Hbat i). }
  split; [|split].
  - intros t st Hrun. by destruct (Hloop t st Hrun) as (_ & Hbat & Hutil).
  - intros Hzero r (t & st & Hrun & ->)%uptime_inv.
    destruct (Hloop t st Hrun) as ([_ Hlu] & Hbat & Hutil).
    unfold load_served_fraction; cbn.
    assert (pysum (utilization st) == 0) as ->.
    { apply pysum_zeros, Forall_lookup. intros i u Hui.
      pose proof (lookup_lt_Some _ _ _ Hui) as Hi.
      destruct (lookup_lt_is_Some_2 sol i) as [s Hs]; [lia|].
      destruct (Hutil i s Hs) as (u' & b & Hu' & Hb & _ & Hq).
      replace u with u' by congruence.
      pose proof (Forall_lookup_1 _ _ _ _ Hzero Hs) as Hs0. cbn in Hs0.
      rewrite Hq by lra. rewrite Hs0, (Hbat i b Hb). unfold Qdiv. ring. }
    unfold Qdiv. ring.
  - intros Hne. destruct (t_interval_Some sol Hne) as [t Ht].
    exists t. split; [done|]. by apply uptime_returns.
Qed.

(** The theorem at [load = 2] on a dark series: nothing is served. *)
Lemma uptime_zero_capacity_witness :
  ∃ r, uptime 0 2 [0; 0; 0] = Some r ∧ load_served_fraction r == 0.
Proof.
  assert (0 == 0) as Hc by reflexivity.
  assert (0 < 2) as Hl by lra.
  assert (Forall (λ s, 0 <= s) [0; 0; 0]) as Hsol by (repeat constructor; lra).
  assert (Forall (λ s, s == 0) [0; 0; 0]) as Hzero
    by (repeat constructor; reflexivity).
  destruct (uptime_zero_capacity 0 2 [0; 0; 0] Hc Hl Hsol) as (_ & Hserved & Hex).
  destruct Hex as (t & Ht & Hret); [discriminate|].
  destruct Hret as [r Hr].
  { vm_compute in Ht. injection Ht as <-. vm_compute. discriminate. }
  exists r. split; [exact Hr|]. exact (Hserved Hzero r Hr).
Defined.

(** C7, as it is worded, fails on the code as it runs.  In binary64,
    [uptime(0, 0.3, [0.1])] stores the utilization
    [(0.1 * 8760 + 0) / (0.3 * 8760) = 0.3333333333333333], which is below
    [min(0.1 / 0.3, 1) = 0.33333333333333337]. *)
Lemma uptime_zero_capacity_counterexample :
  ∃ t st u,
    B64.uptime_loop 0 0.3 [0.1%float] = Some (t, st) ∧
    B64.utilization st !! 0%nat = Some u ∧
    (u =? B64.pymin (0.1 / 0.3) 1)%float = false ∧
    (u <? B64.pymin (0.1 / 0.3) 1)%float = true.
Proof.
  eexists _, _, _. split; [vm_compute; reflexivity|].
  split; [reflexivity|]. split; vm_compute; reflexivity.
Qed.

(** ** A series that equals the load *)

Lemma dispatch_at_load_charged (capacity load t s b : Q) :
  s == load → b == capacity → 0 < capacity →
  Qltb load s = false ∧ Qltb ((load - s) * t) b = true ∧
  (dispatch capacity load t s b).1 == capacity ∧
  (dispatch capacity load t s b).2 = 1.
Proof.
  intros Hs Hb Hc.
  assert (Qltb load s = false) as E1 by (apply Qltb_ge; lra).
  assert (Qltb ((load - s) * t) b = true) as E2 by (apply Qltb_lt; nra).
  unfold dispatch. rewrite E1, E2; cbn.
  repeat split; try done. nra.
Qed.

(** Without charge the third branch is taken. *)
Lemma dispatch_at_load_empty (capacity load t s b : Q) :
  s == load → b == 0 →
  (dispatch capacity load t s b).1 == 0 ∧
  (dispatch capacity load t s b).2 = (s * t + b) / (load * t).
Proof.
  intros Hs Hb.
  assert (Qltb load s = false) as E1 by (apply Qltb_ge; lra).
  assert (Qltb ((load - s) * t) b = false) as E2 by (apply Qltb_ge; nra).
  unfold dispatch. rewrite E1, E2; cbn. done.
Qed.

(** With a positive capacity no round divides: the loop returns. *)
Lemma uptime_loop_at_load_charged (capacity load t : Q) (sol : list Q) :
  Forall (λ s, s == load) sol → 0 < capacity → t_interval_of sol = Some t →
  ∃ st, uptime_loop capacity load sol = Some (t, st) ∧
    sized (length sol) st ∧
    filled (λ b, b == capacity) (S (length sol)) (battery st).
Proof.
  intros Hsol Hc Ht.
  apply (uptime_loop_rule
           (λ i st, filled (λ b, b == capacity) (S i) (battery st))); [done|..].
  - cbn. intros [|j] x Hj; [|lia]. cbn. by intros [= <-].
  - intros i a s b Hi Hsz Hbat Hs Hb.
    destruct (dispatch_at_load_charged capacity load t s b)
      as (E1 & E2 & Hb' & Hu'); try done.
    { by apply (Forall_lookup_1 _ _ _ _ Hsol Hs). }
    { apply (Hbat i); [lia|done]. }
    split; [intros _ E; congruence|]. cbn.
    by apply filled_insert_next.
Qed.

(** C8, as the code has it.  On a series whose samples all equal the load,
    whenever [uptime] returns, the served fraction is
    [t_interval * sum(utilization) / (24 * 365)] where, with a positive
    capacity, every charge equals the capacity, every utilization is [1],
    the battery fraction is one and the served fraction is
    [t_interval * len(sol) / (24 * 365)]; and where, with capacity zero,
    every charge is zero, every utilization is the quotient
    [(sol[i] * t_interval + battery[i]) / (load * t_interval)] of the third
    branch (a number divided by itself), and the battery fraction is zero.
    On a non-empty series [uptime] returns when the capacity is positive or
    [load * t_interval] is not zero.  (The served fraction is one up to
    rounding: [t_interval * len(sol)] need not round to [24 * 365].) *)
Theorem uptime_constant_at_load (capacity load : Q) (sol : list Q) :
  Forall (λ s, s == load) sol →
  (∀ t st r,
     uptime_loop capacity load sol = Some (t, st) →
     uptime capacity load sol = Some r →
     load_served_fraction r = t * pysum (utilization st) / (24 * 365) ∧
     (0 < capacity →
        (∀ i b, battery st !! i = Some b → b == capacity) ∧
        (∀ i u, utilization st !! i = Some u → u = 1) ∧
        battery_uptime_fraction r == 1 ∧
        load_served_fraction r == t * len sol / (24 * 365)) ∧
     (capacity == 0 →
        (∀ i b, battery st !! i = Some b → b == 0) ∧
        (∀ i u, utilization st !! i = Some u →
           ∃ s b, sol !! i = Some s ∧ battery st !! i = Some b ∧
                  u = (s * t + b) / (load * t)) ∧
        battery_uptime_fraction r == 0)) ∧
  (sol ≠ [] →
     ∃ t, t_interval_of sol = Some t ∧
          (0 < capacity ∨ ¬ load * t == 0 →
           ∃ r, uptime capacity load sol = Some r)).
Proof.
  intros Hsol. split.
  - intros t st r Hrun Hr.
    rewrite (uptime_of_loop _ _ _ _ _ Hrun) in Hr. injection Hr as <-.
    apply uptime_loop_trajectory in Hrun as (Ht & Hsz & Htr).
    destruct (t_interval_inv sol t Ht) as (Hne & Hn & _ & _).
    pose proof Hsz as [Hlb Hlu].
    unfold load_served_fraction, battery_uptime_fraction; cbn.
    split; [done|]. split.
    + intros Hc.
      assert (∀ i b, battery st !! i = Some b → b == capacity) as Hbat.
      { apply (trajectory_charges (λ b, b == capacity) capacity load t sol);
          [done|done|done|].
        intros i s b Hs Hb.
        destruct (dispatch_at_load_charged capacity load t s b)
          as (_ & _ & H & _); try done.
        by apply (Forall_lookup_1 _ _ _ _ Hsol Hs). }
      assert (∀ i u, utilization st !! i = Some u → u = 1) as Hutil.
      { intros i u Hu. pose proof (lookup_lt_Some _ _ _ Hu) as Hi.
        destruct (lookup_lt_is_Some_2 sol i) as [s Hs]; [lia|].
        destruct (trajectory_at capacity load t sol st i s)
          as (b & Hb & _ & Hu' & _); [done..|].
        destruct (dispatch_at_load_charged capacity load t s b)
          as (_ & _ & _ & H); try done.
        { by apply (Forall_lookup_1 _ _ _ _ Hsol Hs). }
        { by apply (Hbat i). }
        congruence. }
      split; [done|]. split; [done|]. split.
      * rewrite (len_sized _ _ Hlb). fold (len sol). unfold batsum_of.
        rewrite batsum_positive, (len_removelast _ _ Hlb).
        -- fold (len sol). field. lra.
        -- apply Forall_removelast, Forall_lookup. intros i b Hb.
           rewrite (Hbat i b Hb). done.
      * rewrite pysum_ones, (len_eq _ sol Hlu); [done|].
        apply Forall_lookup. intros i u Hu. by rewrite (Hutil i u Hu).
    + intros Hc.
      assert (∀ i b, battery st !! i = Some b → b == 0) as Hbat.
      { apply (trajectory_charges (λ b, b == 0) capacity load t sol);
          [done|done|done|].
        intros i s b Hs Hb.
        destruct (dispatch_at_load_empty capacity load t s b) as [H _];
          try done.
        by apply (Forall_lookup_1 _ _ _ _ Hsol Hs). }
      split; [done|]. split.
      * intros i u Hu. pose proof (lookup_lt_Some _ _ _ Hu) as Hi.
        destruct (lookup_lt_is_Some_2 sol i) as [s Hs]; [lia|].
        destruct (trajectory_at capacity load t sol st i s)
          as (b & Hb & _ & Hu' & _); [done..|].
        destruct (dispatch_at_load_empty capacity load t s b) as [_ H].
        { by apply (Forall_lookup_1 _ _ _ _ Hsol Hs). }
        { by apply (Hbat i). }
        exists s, b. split; [done|]. split; [done|]. congruence.
      * rewrite (len_sized _ _ Hlb). fold (len sol). unfold batsum_of.
        rewrite batsum_empty.
        -- field. lra.
        -- apply Forall_removelast, Forall_lookup. intros i b Hb.
           by apply (Hbat i).
  - intros Hne. destruct (t_interval_Some sol Hne) as [t Ht].
    exists t. split; [done|]. intros [Hc|Hlt].
    + destruct (uptime_loop_at_load_charged capacity load t sol)
        as (st & Hrun & _); try done.
      eexists. by apply uptime_of_loop.
    + by apply (uptime_returns _ _ t).
Qed.

(** The theorem at a two-sample series with a battery: both intervals are
    served in full and the battery fraction is one. *)
Lemma uptime_constant_at_load_witness :
  ∃ t st r,
    uptime_loop 5 (1 # 2) [1 # 2; 1 # 2] = Some (t, st) ∧
    uptime 5 (1 # 2) [1 # 2; 1 # 2] = Some r ∧
    (∀ i u, utilization st !! i = Some u → u = 1) ∧
    battery_uptime_fraction r == 1 ∧
    load_served_fraction r == t * 2 / (24 * 365).
Proof.
  assert (Forall (λ s, s == 1 # 2) [1 # 2; 1 # 2]) as Hsol
    by (repeat constructor; reflexivity).
  destruct (uptime_constant_at_load 5 (1 # 2) [1 # 2; 1 # 2] Hsol) as [Hloop Hex].
  destruct (uptime_loop 5 (1 # 2) [1 # 2; 1 # 2]) as [[t st]|] eqn:E;
    [|vm_compute in E; discriminate].
  destruct Hex as (t' & _ & Hret); [discriminate|].
  destruct Hret as [r Hr]; [left; reflexivity|].
  destruct (Hloop t st r eq_refl Hr) as (_ & Hcharged & _).
  destruct Hcharged as (_ & Hutil & Hbat & Hserved); [reflexivity|].
  exists t, st, r. split; [reflexivity|]. split; [exact Hr|].
  split; [exact Hutil|]. split; [exact Hbat | exact Hserved].
Defined.

(** C8, as it is worded, fails on the code as it runs.  In binary64, on 539
    samples equal to the load [1], with a battery and without,
    [t_interval = 8760 / 539 = 16.252319109461968] and
    [t_interval * 539 / 8760 = 1.0000000000000002]: the served fraction
    [uptime] returns is not [1]. *)
Lemma uptime_constant_at_load_counterexample :
  (∃ r, B64.uptime 1 1 (replicate 539 1%float) = Some r ∧
        (B64.load_served_fraction r =? 1)%float = false ∧
        (B64.battery_uptime_fraction r =? 1)%float = true) ∧
  (∃ r, B64.uptime 0 1 (replicate 539 1%float) = Some r ∧
        (B64.load_served_fraction r =? 1)%float = false ∧
        (B64.battery_uptime_fraction r =? 0)%float = true).
Proof.
  split; (eexists; split; [vm_compute; reflexivity|]);
    split; vm_compute; reflexivity.
Qed.

(** ** A larger battery never holds less *)

Lemma pymin_mono (x1 x2 y1 y2 : Q) :
  x1 <= x2 → y1 <= y2 → pymin x1 y1 <= pymin x2 y2.
Proof. intros Hx Hy. unfold pymin. do 2 case_ltb; lra. Qed.






(** ** The cost figure *)

(** [uptime] hands its first two arguments back. *)
Lemma uptime_echo (capacity load : Q) (sol : list Q) (r : Q * Q * Q * Q) :
  uptime capacity load sol = Some r → r.1.1.1 = capacity ∧ r.1.1.2 = load.
Proof. by intros (t & st & _ & ->)%uptime_inv. Qed.

Lemma uptime_total (capacity load : Q) (sol : list Q) :
  sol ≠ [] → ¬ load == 0 → ∃ r, uptime capacity load sol = Some r.
Proof.
  intros Hne Hl.
  destruct (uptime_loop_total capacity load sol Hne Hl) as (t & st & Hrun & _).
  eexists. by apply uptime_of_loop.
Qed.

(** The cost is the quotient the code writes, over whatever [uptime]
    returns at the converted sizes. *)
Lemma all_in_system_cost_unfold
    (solar_cost battery_cost load_cost battery_size array_size : Q)
    (sol : list Q) (r : Q * Q * Q * Q) :
  ¬ array_size == 0 →
  uptime (battery_size / array_size) (1 / array_size) sol = Some r →
  all_in_system_cost solar_cost battery_cost load_cost battery_size array_size sol =
    pydiv (battery_size / array_size * battery_cost + solar_cost
           + load_cost * (1 / array_size))
          (1 / array_size * load_served_fraction r).
Proof.
  intros Ha Hr. unfold all_in_system_cost. rewrite !pydiv_Some by done. cbn.
  rewrite Hr; cbn. destruct (uptime_echo _ _ _ _ Hr) as [Hc Hl].
  destruct r as [[[c l] bu] tu]; cbn in *. by subst.
Qed.

(** C2.  For a non-empty series, [battery_size >= 0] and [array_size > 0]:
    the simulation at [capacity = battery_size / array_size] and
    [load = 1 / array_size] returns, and [all_in_system_cost] is the
    division of [capacity * battery_cost + solar_cost + load_cost * load] by
    [load * load_served_fraction]: that quotient when the served fraction is
    not zero, the division error when it is. *)
Theorem all_in_system_cost_formula
    (solar_cost battery_cost load_cost battery_size array_size : Q)
    (sol : list Q) :
  sol ≠ [] → 0 <= battery_size → 0 < array_size →
  let capacity := battery_size / array_size in
  let load := 1 / array_size in
  ∃ r, uptime capacity load sol = Some r ∧
    all_in_system_cost solar_cost battery_cost load_cost battery_size array_size sol =
      pydiv (capacity * battery_cost + solar_cost + load_cost * load)
            (load * load_served_fraction r) ∧
    (¬ load_served_fraction r == 0 →
       all_in_system_cost solar_cost battery_cost load_cost battery_size array_size sol =
         Some ((capacity * battery_cost + solar_cost + load_cost * load)
               / (load * load_served_fraction r))) ∧
    (load_served_fraction r == 0 →
       all_in_system_cost solar_cost battery_cost load_cost battery_size array_size sol =
         None).
Proof.
  intros Hne _ Ha capacity load.
  assert (0 < load) as Hl by (apply Qlt_shift_div_l; lra).
  destruct (uptime_total capacity load sol Hne) as [r Hr]; [lra|].
  exists r. split; [done|].
  rewrite (all_in_system_cost_unfold _ _ _ _ _ _ r) by (done || lra).
  fold capacity load. split; [done|]. split.
  - intros Hu. apply pydiv_Some. nra.
  - intros Hu. apply pydiv_zero. rewrite Hu. ring.
Qed.

(** The theorem at [battery_size = 1], [array_size = 2] on a day and a
    night: the cost is the quotient. *)
Lemma all_in_system_cost_formula_witness :
  ∃ r, uptime (1 / 2) (1 / 2) [1; 0] = Some r ∧
       all_in_system_cost 100 10 50 1 2 [1; 0] =
         Some ((1 / 2 * 10 + 100 + 50 * (1 / 2))
               / (1 / 2 * load_served_fraction r)).
Proof.
  assert ([1; 0] ≠ []) as Hne by done.
  assert (0 <= 1) as Hb by lra.
  assert (0 < 2) as Ha by lra.
  destruct (all_in_system_cost_formula 100 10 50 1 2 [1; 0] Hne Hb Ha)
    as (r & Hr & _ & Hsome & _).
  exists r. split; [done|]. apply Hsome.
  vm_compute in Hr. injection Hr as <-. vm_compute. discriminate.
Defined.

(** ** Elasticities *)

(** [cost_and_elasticity] returns a tuple exactly when the three cost
    evaluations return its first three components, the first of them is not
    zero, and the last two components are the quotients the code writes. *)
Lemma cost_and_elasticity_iff
    (solar_cost battery_cost load_cost battery_size array_size : Q)
    (sol : list Q) (cost cost_battery cost_array e_battery e_array : Q) :
  cost_and_elasticity solar_cost battery_cost load_cost battery_size array_size sol
    = Some (cost, cost_battery, cost_array, e_battery, e_array)
  ↔
  all_in_system_cost solar_cost battery_cost load_cost
    battery_size array_size sol = Some cost ∧
  all_in_system_cost solar_cost battery_cost load_cost
    (1.01 * battery_size + 0.01) array_size sol = Some cost_battery ∧
  all_in_system_cost solar_cost battery_cost load_cost
    battery_size (1.01 * array_size + 0.01) sol = Some cost_array ∧
  ¬ cost == 0 ∧
  e_battery = (cost - cost_battery) / cost ∧
  e_array = (cost - cost_array) / cost.
Proof.
  unfold cost_and_elasticity. split.
  - destruct (all_in_system_cost _ _ _ battery_size array_size sol)
      as [c|]; cbn; [|done].
    destruct (all_in_system_cost _ _ _ (1.01 * battery_size + 0.01) _ sol)
      as [cb|]; cbn; [|done].
    destruct (all_in_system_cost _ _ _ battery_size (1.01 * array_size + 0.01) sol)
      as [ca|]; cbn; [|done].
    destruct (pydiv (c - cb) c) as [eb|] eqn:Eb; cbn; [|done].
    destruct (pydiv (c - ca) c) as [ea|] eqn:Ea; cbn; [|done].
    intros [= <- <- <- <- <-].
    apply pydiv_inv in Eb as [Hc ->]. apply pydiv_inv in Ea as [_ ->]. done.
  - intros (-> & -> & -> & Hc & -> & ->). cbn.
    rewrite !pydiv_Some by done. done.
Qed.

(** ** The search loop *)

(** What one round does to the variables, when it returns. *)
Lemma search_body_inv (solar_cost battery_cost load_cost amplitude : Q)
    (sol : list Q) (rnd : nat → Q) (i : nat) (s s' : search) :
  search_body solar_cost battery_cost load_cost amplitude sol rnd i s = Some s' →
  ∃ cost cost_bat cost_arr dcost_bat dcost_arr,
    cost_and_elasticity solar_cost battery_cost load_cost (bi s) (ai s) sol =
      Some (cost, cost_bat, cost_arr, dcost_bat, dcost_arr) ∧
    bi s' = pymax 0 (bi s + amplitude * (0.1 + (1 - 0.1) * rnd (draws s)) * dcost_bat) ∧
    ai s' = pymax 0.01 (ai s + amplitude * (0.1 + (1 - 0.1) * rnd (S (draws s))) * dcost_arr) ∧
    draws s' = S (S (draws s)) ∧
    (Qltb cost (cost_min s) = true ∧
       cost_min s' = cost ∧ bi_min s' = bi s ∧ ai_min s' = ai s
     ∨ Qltb cost (cost_min s) = false ∧
       cost_min s' = cost_min s ∧ bi_min s' = bi_min s ∧ ai_min s' = ai_min s).
Proof.
  unfold search_body.
  destruct (cost_and_elasticity _ _ _ _ _ _) as [[[[[c cb] ca] db] da]|];
    cbn; [|done].
  destruct (Qltb c (cost_min s)) eqn:E; cbn; intros [= <-]; cbn;
    exists c, cb, ca, db, da; repeat split; auto.
Qed.

(** A loop that returned also returned after each of its first rounds. *)
Lemma search_loop_prefix (solar_cost battery_cost load_cost : Q) (sol : list Q)
    (rnd : nat → Q) (pos k n : nat) (s : search) :
  (k ≤ n)%nat →
  search_loop solar_cost battery_cost load_cost sol rnd pos n = Some s →
  ∃ sk, search_loop solar_cost battery_cost load_cost sol rnd pos k = Some sk.
Proof.
  intros Hk. unfold search_loop.
  replace n with (k + (n - k))%nat by lia. rewrite for_range_split.
  destruct (for_range 0 k _ _) as [sk|]; cbn; [|done]. by exists sk.
Qed.

Lemma search_loop_sizes (solar_cost battery_cost load_cost : Q) (sol : list Q)
    (rnd : nat → Q) (pos k : nat) (s : search) :
  search_loop solar_cost battery_cost load_cost sol rnd pos k = Some s →
  draws s = (pos + 2 * k)%nat ∧ ((1 ≤ k)%nat → 0 <= bi s ∧ 0.01 <= ai s).
Proof.
  unfold search_loop. intros Hrun.
  apply (for_range_partial _
           (λ i a, draws a = (pos + 2 * i)%nat ∧
                   ((1 ≤ i)%nat → 0 <= bi a ∧ 0.01 <= ai a))) in Hrun; [done|..].
  - cbn. split; lia.
  - intros i a a' _ [Hd _] Hbody.
    apply search_body_inv in Hbody
      as (c & cb & ca & db & da & _ & -> & -> & -> & _).
    split; [lia|]. intros _. split; apply pymax_ge_l.
Qed.

(** The report is assembled from the state the hundred rounds leave. *)
Lemma find_minimum_system_cost_inv (solar_cost battery_cost load_cost : Q)
    (sol : list Q) (rnd : nat → Q) (pos pos' : nat) (r : report) :
  find_minimum_system_cost solar_cost battery_cost load_cost sol rnd pos
    = Some (r, pos') →
  ∃ s, search_loop solar_cost battery_cost load_cost sol rnd pos 100 = Some s ∧
    pos' = draws s ∧
    ¬ ai_min s == 0 ∧
    uptime (bi_min s / ai_min s) (1 / ai_min s) sol = Some (ut r) ∧
    ¬ load_served_fraction (ut r) == 0 ∧
    inputs r = (solar_cost, battery_cost, load_cost) ∧
    best_sizes r = (ai_min s, bi_min s, 1) ∧
    cost_breakdown r = (solar_cost * ai_min s, battery_cost * bi_min s, load_cost) ∧
    totals r =
      (solar_cost * ai_min s + battery_cost * bi_min s,
       solar_cost * ai_min s + battery_cost * bi_min s + load_cost,
       (solar_cost * ai_min s + battery_cost * bi_min s + load_cost)
       / load_served_fraction (ut r)).
Proof.
  unfold find_minimum_system_cost.
  destruct (search_loop _ _ _ _ _ _ _) as [s|]; cbn; [|done].
  destruct (pydiv (bi_min s) (ai_min s)) as [c|] eqn:Ec; cbn; [|done].
  destruct (pydiv 1 (ai_min s)) as [l|] eqn:El; cbn; [|done].
  apply pydiv_inv in Ec as [Ha ->]. apply pydiv_inv in El as [_ ->].
  destruct (uptime _ _ sol) as [u|] eqn:Eu; cbn; [|done].
  destruct (pydiv _ (load_served_fraction u)) as [lev|] eqn:Elev; cbn; [|done].
  apply pydiv_inv in Elev as [Hu ->].
  intros [= <- <-]. exists s. cbn. repeat split; done.
Qed.

Lemma all_in_system_cost_inv
    (solar_cost battery_cost load_cost battery_size array_size cost : Q)
    (sol : list Q) :
  all_in_system_cost solar_cost battery_cost load_cost battery_size array_size sol
    = Some cost →
  ¬ array_size == 0 ∧
  ∃ r, uptime (battery_size / array_size) (1 / array_size) sol = Some r ∧
       ¬ 1 / array_size * load_served_fraction r == 0 ∧
       cost = (battery_size / array_size * battery_cost + solar_cost
               + load_cost * (1 / array_size))
              / (1 / array_size * load_served_fraction r).
Proof.
  intros Hcost.
  assert (¬ array_size == 0) as Ha.
  { intros E. unfold all_in_system_cost in Hcost.
    rewrite (pydiv_zero battery_size _ E) in Hcost. cbn in Hcost. done. }
  split; [done|].
  destruct (uptime (battery_size / array_size) (1 / array_size) sol)
    as [r|] eqn:Hr.
  - exists r. split; [done|].
    rewrite (all_in_system_cost_unfold _ _ _ _ _ _ r) in Hcost by done.
    by apply pydiv_inv in Hcost as [? ->].
  - unfold all_in_system_cost in Hcost. rewrite !pydiv_Some in Hcost by done.
    cbn in Hcost. by rewrite Hr in Hcost.
Qed.

(** After the first round the best sizes have a cost, which like the tracked
    best cost is at most the cost of the initial sizes. *)
Lemma search_loop_best (solar_cost battery_cost load_cost : Q) (sol : list Q)
    (rnd : nat → Q) (pos k : nat) (s : search) :
  (1 ≤ k)%nat →
  search_loop solar_cost battery_cost load_cost sol rnd pos k = Some s →
  ∃ cost0 cost_best,
    all_in_system_cost solar_cost battery_cost load_cost
      (initial_size load_cost) (initial_size load_cost) sol = Some cost0 ∧
    all_in_system_cost solar_cost battery_cost load_cost
      (bi_min s) (ai_min s) sol = Some cost_best ∧
    cost_best <= cost0 ∧ cost_min s <= cost0.
Proof.
  unfold search_loop. intros Hk Hrun.
  apply (for_range_partial _
           (λ i a, (i = 0%nat ∧ a = search_init load_cost pos) ∨
                   ∃ cost0 cost_best,
                     all_in_system_cost solar_cost battery_cost load_cost
                       (initial_size load_cost) (initial_size load_cost) sol
                       = Some cost0 ∧
                     all_in_system_cost solar_cost battery_cost load_cost
                       (bi_min a) (ai_min a) sol = Some cost_best ∧
                     cost_best <= cost0 ∧ cost_min a <= cost0)) in Hrun.
  - destruct Hrun as [[? _]|H]; [lia|done].
  - by left.
  - intros i a a' _ Hinv Hbody. right.
    apply search_body_inv in Hbody
      as (c & cb & ca & db & da & Hce & _ & _ & _ & Hmin).
    apply cost_and_elasticity_iff in Hce as (Hc & _).
    destruct Hinv as [[_ ->]|(cost0 & cbest & H0 & Hbest & Hle & Hmle)].
    + cbn in Hc, Hmin. exists c.
      destruct Hmin as [(E & -> & -> & ->)|(E & -> & -> & ->)].
      * exists c. cbn. repeat split; try done; lra.
      * exists c. cbn. apply Qltb_ge in E. repeat split; try done; lra.
    + exists cost0.
      destruct Hmin as [(E & -> & -> & ->)|(E & -> & -> & ->)].
      * exists c. apply Qltb_lt in E. repeat split; try done; lra.
      * exists cbest. done.
Qed.

(** ** When the search returns *)

Lemma dispatch_positive (capacity load t s b : Q) :
  0 <= b → 0 < load → 0 < t → 0 < s → 0 < (dispatch capacity load t s b).2.
Proof.
  intros Hb Hl Ht Hs. unfold dispatch. case_ltb; [|case_ltb]; cbn; try lra.
  apply Qlt_shift_div_l; nra.
Qed.

Lemma pysum_nonneg (l : list Q) : Forall (λ u, 0 <= u) l → 0 <= pysum l.
Proof.
  induction 1 as [|x l Hx _ IH]; [done|]. rewrite pysum_cons. lra.
Qed.

Lemma pysum_positive (l : list Q) (i : nat) (u : Q) :
  Forall (λ u, 0 <= u) l → l !! i = Some u → 0 < u → 0 < pysum l.
Proof.
  intros Hl. revert i. induction Hl as [|x l Hx Hl IH]; intros i Hi Hu; [done|].
  rewrite pysum_cons. pose proof (pysum_nonneg l Hl).
  destruct i as [|i]; cbn in Hi.
  - injection Hi as ->. lra.
  - specialize (IH i Hi Hu). lra.
Qed.

(** With some sun, some load is served. *)
Lemma uptime_served_positive (capacity load : Q) (sol : list Q) :
  0 <= capacity → 0 < load →
  Forall (λ s, 0 <= s) sol → Exists (λ s, 0 < s) sol →
  ∃ r, uptime capacity load sol = Some r ∧ 0 < load_served_fraction r.
Proof.
  intros Hc Hl Hsol (s0 & [i0 Hi0]%list_elem_of_lookup & Hs0)%Exists_exists.
  assert (sol ≠ []) as Hne by (by intros ->).
  destruct (t_interval_Some sol Hne) as [t Ht].
  destruct (t_interval_inv sol t Ht) as (_ & Hn & Htpos & Htn).
  destruct (uptime_loop_rule
              (λ i st, Forall (λ b, 0 <= b <= capacity) (battery st) ∧
                       Forall (λ u, 0 <= u) (utilization st) ∧
                       filled_from (λ s u, 0 < s → 0 < u) i sol (utilization st))
              capacity load t sol Ht)
    as (st & Hrun & [_ Hlu] & _ & Hutil & Hpos).
  - cbn. split; [|split].
    + constructor; [lra|]. apply Forall_replicate. lra.
    + apply Forall_replicate. lra.
    + intros j a x Hj. lia.
  - intros i a s b Hi Hsz (Hbat & Hutil & Hpos) Hs Hb.
    split; [intros _ _; nra|].
    pose proof (Forall_lookup_1 _ _ _ _ Hsol Hs) as Hs'. cbn in Hs'.
    pose proof (Forall_lookup_1 _ _ _ _ Hbat Hb) as Hb'. cbn in Hb'.
    destruct (dispatch_bounds capacity load t s b) as [Hb1 Hu1]; try done.
    cbn. split; [by apply Forall_insert|]. split.
    + apply Forall_insert; [done|]. lra.
    + apply (filled_from_insert_next _ _ _ _ s); [done|done|].
      intros Hspos. apply dispatch_positive; lra.
  - eexists. split; [by apply uptime_of_loop|].
    unfold load_served_fraction; cbn.
    rewrite (served_mean t _ (len sol)) by done.
    destruct (lookup_lt_is_Some_2 (utilization st) i0) as [u0 Hu0].
    { apply lookup_lt_Some in Hi0. lia. }
    apply Qlt_shift_div_l; [done|].
    pose proof (pysum_positive _ i0 u0 Hutil Hu0) as Hsum.
    assert (0 < u0) as Hu0pos.
    { apply (Hpos i0 s0 u0); [by apply lookup_lt_Some in Hi0|done..]. }
    specialize (Hsum Hu0pos). lra.
Qed.

(** With costs that are not negative, a positive [load_cost], sizes that
    make sense and some sun, the cost figure exists and is positive. *)
Lemma all_in_system_cost_positive
    (solar_cost battery_cost load_cost battery_size array_size : Q)
    (sol : list Q) :
  0 <= solar_cost → 0 <= battery_cost → 0 < load_cost →
  0 <= battery_size → 0 < array_size →
  Forall (λ s, 0 <= s) sol → Exists (λ s, 0 < s) sol →
  ∃ cost, all_in_system_cost solar_cost battery_cost load_cost
            battery_size array_size sol = Some cost ∧ 0 < cost.
Proof.
  intros Hsc Hbc Hlc Hb Ha Hsol Hsun.
  assert (0 < 1 / array_size) as Hl by (apply Qlt_shift_div_l; lra).
  assert (0 <= battery_size / array_size) as Hc by (apply Qle_shift_div_l; lra).
  destruct (uptime_served_positive (battery_size / array_size) (1 / array_size) sol)
    as (r & Hr & Hu); try done.
  rewrite (all_in_system_cost_unfold _ _ _ _ _ _ r) by (done || lra).
  eexists. split; [apply pydiv_Some; nra|].
  apply Qlt_shift_div_l; nra.
Qed.

Lemma cost_and_elasticity_total
    (solar_cost battery_cost load_cost battery_size array_size : Q)
    (sol : list Q) :
  0 <= solar_cost → 0 <= battery_cost → 0 < load_cost →
  0 <= battery_size → 0 < array_size →
  Forall (λ s, 0 <= s) sol → Exists (λ s, 0 < s) sol →
  ∃ r, cost_and_elasticity solar_cost battery_cost load_cost
         battery_size array_size sol = Some r.
Proof.
  intros Hsc Hbc Hlc Hb Ha Hsol Hsun.
  destruct (all_in_system_cost_positive solar_cost battery_cost load_cost
              battery_size array_size sol) as (c & Hc & Hcpos); try done.
  destruct (all_in_system_cost_positive solar_cost battery_cost load_cost
              (1.01 * battery_size + 0.01) array_size sol)
    as (cb & Hcb & _); try done; [lra|].
  destruct (all_in_system_cost_positive solar_cost battery_cost load_cost
              battery_size (1.01 * array_size + 0.01) sol)
    as (ca & Hca & _); try done; [lra|].
  eexists. apply cost_and_elasticity_iff.
  repeat split; try done. lra.
Qed.

Lemma initial_size_positive (load_cost : Q) :
  0 < load_cost → 0 < initial_size load_cost.
Proof.
  intros Hlc. unfold initial_size, pymin. case_ltb; [|lra].
  apply Qlt_shift_div_l; [reflexivity | lra].
Qed.

(** Under the same conditions every round returns, whatever the draws. *)
Lemma search_loop_total (solar_cost battery_cost load_cost : Q) (sol : list Q)
    (rnd : nat → Q) (pos n : nat) :
  0 <= solar_cost → 0 <= battery_cost → 0 < load_cost →
  Forall (λ s, 0 <= s) sol → Exists (λ s, 0 < s) sol →
  ∃ s, search_loop solar_cost battery_cost load_cost sol rnd pos n = Some s.
Proof.
  intros Hsc Hbc Hlc Hsol Hsun. unfold search_loop.
  destruct (for_range_total
              (search_body solar_cost battery_cost load_cost
                           (initial_amplitude load_cost) sol rnd)
              (λ _ a, 0 <= bi a ∧ 0 < ai a) n 0 (search_init load_cost pos))
    as (s & Hs & _); [| |by exists s].
  - pose proof (initial_size_positive load_cost Hlc). cbn. lra.
  - intros i a _ [Hb Ha].
    destruct (cost_and_elasticity_total solar_cost battery_cost load_cost
                (bi a) (ai a) sol) as ([[[[c cb] ca] db] da] & Hce); try done.
    unfold search_body. rewrite Hce. cbn.
    destruct (Qltb c (cost_min a)); cbn; eexists; (split; [done|]); cbn;
      (split; [apply pymax_ge_l|]);
      (eapply Qlt_le_trans; [|apply pymax_ge_l]; lra).
Qed.

(** Once the hundred rounds have returned, the report is returned. *)
Lemma find_minimum_system_cost_after_loop
    (solar_cost battery_cost load_cost : Q) (sol : list Q) (rnd : nat → Q)
    (pos : nat) (s : search) :
  search_loop solar_cost battery_cost load_cost sol rnd pos 100 = Some s →
  ∃ r, find_minimum_system_cost solar_cost battery_cost load_cost sol rnd pos
       = Some (r, draws s).
Proof.
  intros Hrun.
  destruct (search_loop_best solar_cost battery_cost load_cost sol rnd pos 100 s)
    as (cost0 & cbest & _ & Hb & _); [lia|done|].
  apply all_in_system_cost_inv in Hb as (Ha & r & Hr & Hd & _).
  assert (¬ load_served_fraction r == 0) as Hu
    by (intros E; apply Hd; rewrite E; ring).
  unfold find_minimum_system_cost. rewrite Hrun; cbn.
  rewrite !pydiv_Some by done; cbn. rewrite Hr; cbn.
  rewrite pydiv_Some by done; cbn. by eexists.
Qed.

Lemma find_minimum_system_cost_total (solar_cost battery_cost load_cost : Q)
    (sol : list Q) (rnd : nat → Q) (pos : nat) :
  0 <= solar_cost → 0 <= battery_cost → 0 < load_cost →
  Forall (λ s, 0 <= s) sol → Exists (λ s, 0 < s) sol →
  ∃ r pos', find_minimum_system_cost solar_cost battery_cost load_cost sol rnd pos
            = Some (r, pos').
Proof.
  intros Hsc Hbc Hlc Hsol Hsun.
  destruct (search_loop_total solar_cost battery_cost load_cost sol rnd pos 100)
    as [s Hs]; try done.
  destruct (find_minimum_system_cost_after_loop _ _ _ _ _ _ _ Hs) as [r Hr].
  by exists r, (draws s).
Qed.

(** ** Elasticities, as returned *)

(** C5.  Whenever [cost_and_elasticity] returns, its baseline cost is what
    [all_in_system_cost] returns at the same sizes, its two perturbed costs
    are what [all_in_system_cost] returns at [(1.01 * battery_size + 0.01,
    array_size)] and at [(battery_size, 1.01 * array_size + 0.01)], and its
    elasticities are [(cost - cost_battery) / cost] and
    [(cost - cost_array) / cost], with a baseline that is not zero;
    conversely it returns that tuple whenever the three evaluations return
    and the baseline is not zero; and it does return for costs that are not
    negative, a positive [load_cost], [battery_size >= 0], [array_size > 0]
    and some sun. *)
Theorem cost_and_elasticity_spec
    (solar_cost battery_cost load_cost battery_size array_size : Q)
    (sol : list Q) :
  (∀ cost cost_battery cost_array e_battery e_array,
     cost_and_elasticity solar_cost battery_cost load_cost
       battery_size array_size sol
     = Some (cost, cost_battery, cost_array, e_battery, e_array)
     ↔
     all_in_system_cost solar_cost battery_cost load_cost
       battery_size array_size sol = Some cost ∧
     all_in_system_cost solar_cost battery_cost load_cost
       (1.01 * battery_size + 0.01) array_size sol = Some cost_battery ∧
     all_in_system_cost solar_cost battery_cost load_cost
       battery_size (1.01 * array_size + 0.01) sol = Some cost_array ∧
     ¬ cost == 0 ∧
     e_battery = (cost - cost_battery) / cost ∧
     e_array = (cost - cost_array) / cost) ∧
  (0 <= solar_cost → 0 <= battery_cost → 0 < load_cost →
   0 <= battery_size → 0 < array_size →
   Forall (λ s, 0 <= s) sol → Exists (λ s, 0 < s) sol →
   ∃ r, cost_and_elasticity solar_cost battery_cost load_cost
          battery_size array_size sol = Some r).
Proof.
  split.
  - intros. apply cost_and_elasticity_iff.
  - apply cost_and_elasticity_total.
Qed.

(** The theorem at a day and a night. *)
Lemma cost_and_elasticity_spec_witness :
  ∃ cost cost_battery cost_array,
    all_in_system_cost 100 10 50 1 2 [1; 0] = Some cost ∧
    all_in_system_cost 100 10 50 (1.01 * 1 + 0.01) 2 [1; 0] = Some cost_battery ∧
    all_in_system_cost 100 10 50 1 (1.01 * 2 + 0.01) [1; 0] = Some cost_array ∧
    cost_and_elasticity 100 10 50 1 2 [1; 0] =
      Some (cost, cost_battery, cost_array,
            (cost - cost_battery) / cost, (cost - cost_array) / cost).
Proof.
  destruct (cost_and_elasticity_spec 100 10 50 1 2 [1; 0]) as [Hiff Hret].
  destruct Hret as [[[[[c cb] ca] eb] ea] E]; try lra.
  - repeat constructor; lra.
  - constructor. lra.
  - destruct (proj1 (Hiff c cb ca eb ea) E) as (Hc & Hcb & Hca & _ & -> & ->).
    exists c, cb, ca. exact (conj Hc (conj Hcb (conj Hca E))).
Defined.

(** C6.  The loop of [find_minimum_system_cost] is the search loop at one
    hundred rounds.  With costs that are not negative, a positive
    [load_cost] and some sun the function returns; and whenever it returns,
    every round [k <= 100] has returned a state, two hundred draws (two per
    round) have been consumed, and after every round [k >= 1] the candidate
    sizes satisfy [battery_size >= 0] and [array_size >= 0.01], so that the
    array size is not zero in the next cost evaluation. *)
Theorem search_loop_hundred_rounds (solar_cost battery_cost load_cost : Q)
    (sol : list Q) (rnd : nat → Q) (pos : nat) :
  (0 <= solar_cost → 0 <= battery_cost → 0 < load_cost →
   Forall (λ s, 0 <= s) sol → Exists (λ s, 0 < s) sol →
   ∃ r pos', find_minimum_system_cost solar_cost battery_cost load_cost
               sol rnd pos = Some (r, pos')) ∧
  (∀ r pos',
     find_minimum_system_cost solar_cost battery_cost load_cost sol rnd pos
       = Some (r, pos') →
     pos' = (pos + 2 * 100)%nat ∧
     ∀ k, (k ≤ 100)%nat →
       ∃ s, search_loop solar_cost battery_cost load_cost sol rnd pos k = Some s ∧
            draws s = (pos + 2 * k)%nat ∧
            ((1 ≤ k)%nat → 0 <= bi s ∧ 0.01 <= ai s ∧ ¬ ai s == 0)).
Proof.
  split; [apply find_minimum_system_cost_total|].
  intros r pos' (s & Hrun & -> & _)%find_minimum_system_cost_inv. split.
  - by destruct (search_loop_sizes _ _ _ _ _ _ _ _ Hrun) as [-> _].
  - intros k Hk.
    destruct (search_loop_prefix _ _ _ _ _ _ k _ _ Hk Hrun) as [sk Hsk].
    exists sk. split; [done|].
    destruct (search_loop_sizes _ _ _ _ _ _ _ _ Hsk) as [Hd Hsz].
    split; [done|]. intros H1. destruct (Hsz H1) as [Hb Ha].
    split; [done|]. split; [done|]. lra.
Qed.

(** The theorem on a run whose sizes settle at the two clamps. *)
Lemma search_loop_hundred_rounds_witness :
  ∃ r, find_minimum_system_cost 1000000 1000000 5000 [200] half_draws 0
       = Some (r, 200%nat).
Proof.
  destruct (search_loop_hundred_rounds 1000000 1000000 5000 [200] half_draws 0)
    as [Hret Hinv].
  destruct Hret as (r & p & E); try lra.
  - repeat constructor. lra.
  - constructor. lra.
  - destruct (Hinv r p E) as [-> _]. by exists r.
Defined.

(** ** The report *)

(** C4.  Once its loop has returned, [find_minimum_system_cost] returns; and
    the last tuple of the report is what [uptime] returns at
    [capacity = bi_min / ai_min] and [load = 1 / ai_min], for the best sizes
    [(ai_min, bi_min, 1)] the loop left; the last of the totals is
    [total_cost] divided by the served fraction of that simulation, with
    [total_cost = solar_cost * ai_min + battery_cost * bi_min + load_cost]. *)
Theorem find_minimum_report (solar_cost battery_cost load_cost : Q)
    (sol : list Q) (rnd : nat → Q) (pos : nat) :
  (∀ s, search_loop solar_cost battery_cost load_cost sol rnd pos 100 = Some s →
     ∃ r, find_minimum_system_cost solar_cost battery_cost load_cost
            sol rnd pos = Some (r, draws s)) ∧
  (∀ r pos',
     find_minimum_system_cost solar_cost battery_cost load_cost sol rnd pos
       = Some (r, pos') →
     ∃ s, search_loop solar_cost battery_cost load_cost sol rnd pos 100 = Some s ∧
       best_sizes r = (ai_min s, bi_min s, 1) ∧
       uptime (bi_min s / ai_min s) (1 / ai_min s) sol = Some (ut r) ∧
       let total_cost :=
         solar_cost * ai_min s + battery_cost * bi_min s + load_cost in
       (totals r).1.2 = total_cost ∧
       levelized_cost r = total_cost / load_served_fraction (ut r) ∧
       ¬ load_served_fraction (ut r) == 0).
Proof.
  split; [apply find_minimum_system_cost_after_loop|].
  intros r pos'
    (s & Hrun & _ & _ & Hut & Hu & _ & Hsz & _ & Htot)%find_minimum_system_cost_inv.
  exists s. unfold levelized_cost. rewrite Htot. cbn. done.
Qed.

(** The theorem on the run that settles at the two clamps: the best sizes
    are an array of [0.01] and no battery. *)
Lemma find_minimum_report_witness :
  ∃ r p, find_minimum_system_cost 1000000 1000000 5000 [200] half_draws 0
           = Some (r, p) ∧
         uptime (0 / 0.01) (1 / 0.01) [200] = Some (ut r) ∧
         levelized_cost r =
           (1000000 * 0.01 + 1000000 * 0 + 5000) / load_served_fraction (ut r).
Proof.
  destruct (find_minimum_report 1000000 1000000 5000 [200] half_draws 0)
    as [Hret Hrep].
  destruct (search_loop 1000000 1000000 5000 [200] half_draws 0 100)
    as [s|] eqn:Hs; [|vm_compute in Hs; discriminate].
  destruct (Hret s eq_refl) as [r E].
  destruct (Hrep r (draws s) E) as (s' & Hs' & _ & Hut & _ & Hlev & _).
  injection Hs' as <-.
  vm_compute in Hs. injection Hs as <-. cbn [bi_min ai_min] in Hut, Hlev.
  exists r, 200%nat. split; [exact E|]. split; [exact Hut | exact Hlev].
Defined.

(** ** The best cost *)

(** When the tracked best cost is below its initial [10**10], it is the cost
    a round got at the best sizes. *)
Lemma search_loop_best_evaluated (solar_cost battery_cost load_cost : Q)
    (sol : list Q) (rnd : nat → Q) (pos k : nat) (s : search) :
  search_loop solar_cost battery_cost load_cost sol rnd pos k = Some s →
  cost_min s < 10 ^ 10 →
  all_in_system_cost solar_cost battery_cost load_cost (bi_min s) (ai_min s) sol
    = Some (cost_min s).
Proof.
  unfold search_loop.
  apply (for_range_partial _
           (λ _ a, cost_min a < 10 ^ 10 →
                   all_in_system_cost solar_cost battery_cost load_cost
                     (bi_min a) (ai_min a) sol = Some (cost_min a))).
  - cbn [search_init cost_min]. intros Hlt. exfalso.
    by apply (Qlt_irrefl (10 ^ 10)).
  - intros i a a' _ Hinv Hbody.
    apply search_body_inv in Hbody
      as (c & cb & ca & db & da & Hce & _ & _ & _ & Hmin).
    apply cost_and_elasticity_iff in Hce as (Hc & _).
    by destruct Hmin as [(_ & -> & -> & ->)|(_ & -> & -> & ->)].
Qed.

(** C3, as the code has it.  With costs that are not negative, a positive
    [load_cost] and some sun, [find_minimum_system_cost] returns.  Whenever
    it returns, the cost of its initial sizes
    [bi = ai = min(10, 10 * load_cost / 5e6)] was computed and does not beat
    the best cost the loop tracked ([cost0 < cost_min] is false); the sizes
    of the report are the best sizes; and when the tracked best cost is
    below [10**10] it is exactly what [all_in_system_cost] gives at those
    sizes.  (The tracked best cost is not returned.  The figure of the
    report, [total_cost / ut[-1]], is computed by another formula: it agrees
    with the tracked best cost up to rounding only, and can exceed the cost
    of the initial sizes.) *)
Theorem find_minimum_not_worse (solar_cost battery_cost load_cost : Q)
    (sol : list Q) (rnd : nat → Q) (pos : nat) :
  (0 <= solar_cost → 0 <= battery_cost → 0 < load_cost →
   Forall (λ s, 0 <= s) sol → Exists (λ s, 0 < s) sol →
   ∃ r pos', find_minimum_system_cost solar_cost battery_cost load_cost
               sol rnd pos = Some (r, pos')) ∧
  (∀ r pos',
     find_minimum_system_cost solar_cost battery_cost load_cost sol rnd pos
       = Some (r, pos') →
     ∃ cost0 s,
       all_in_system_cost solar_cost battery_cost load_cost
         (initial_size load_cost) (initial_size load_cost) sol = Some cost0 ∧
       search_loop solar_cost battery_cost load_cost sol rnd pos 100 = Some s ∧
       best_sizes r = (ai_min s, bi_min s, 1) ∧
       ¬ cost0 < cost_min s ∧
       (cost_min s < 10 ^ 10 →
          all_in_system_cost solar_cost battery_cost load_cost
            (bi_min s) (ai_min s) sol = Some (cost_min s))).
Proof.
  split; [apply find_minimum_system_cost_total|].
  intros r pos'
    (s & Hrun & _ & _ & _ & _ & _ & Hsz & _)%find_minimum_system_cost_inv.
  destruct (search_loop_best solar_cost battery_cost load_cost sol rnd pos 100 s)
    as (cost0 & cbest & H0 & _ & _ & Hmle); [lia|done|].
  exists cost0, s. split; [done|]. split; [done|]. split; [done|].
  split; [by apply Qle_not_lt|].
  by apply (search_loop_best_evaluated _ _ _ _ rnd pos 100).
Qed.

(** The theorem on the run that settles at the two clamps: the initial
    sizes cost 25000, and that does not beat the best cost. *)
Lemma find_minimum_not_worse_witness :
  ∃ r p cost0 s,
    find_minimum_system_cost 1000000 1000000 5000 [200] half_draws 0
      = Some (r, p) ∧
    all_in_system_cost 1000000 1000000 5000
      (initial_size 5000) (initial_size 5000) [200] = Some cost0 ∧
    search_loop 1000000 1000000 5000 [200] half_draws 0 100 = Some s ∧
    cost0 == 25000 ∧ ¬ cost0 < cost_min s.
Proof.
  destruct (find_minimum_not_worse 1000000 1000000 5000 [200] half_draws 0)
    as [Hret Hbest].
  destruct Hret as (r & p & E); try lra.
  - repeat constructor. lra.
  - constructor. lra.
  - destruct (Hbest r p E) as (cost0 & s & H0 & Hs & _ & Hle & _).
    exists r, p, cost0, s. split; [exact E|]. split; [exact H0|].
    split; [exact Hs|]. split; [|exact Hle].
    vm_compute in H0. injection H0 as <-. reflexivity.
Defined.

(** C3, as it is worded, fails on the code as it runs.  In binary64, with
    no solar and no battery cost, [load_cost = 1010] and the series
    [[1e6]], the cost at the initial sizes is [1009.9999999999999], and the
    figure the report returns, [total_cost / ut[-1]], is [1010.0]: above
    the cost of the initial sizes. *)
Lemma find_minimum_not_worse_counterexample :
  ∃ r p cost0,
    B64.find_minimum_system_cost 0 0 1010 [1e6%float] B64.half_draws 0
      = Some (r, p) ∧
    B64.all_in_system_cost 0 0 1010
      (B64.initial_size 1010) (B64.initial_size 1010) [1e6%float] = Some cost0 ∧
    (B64.levelized_cost r <=? cost0)%float = false ∧
    (cost0 <? B64.levelized_cost r)%float = true.
Proof.
  eexists _, _, _. split; [vm_compute; reflexivity|].
  split; [vm_compute; reflexivity|]. split; vm_compute; reflexivity.
Qed.

(** ** Where the functions raise *)

(** An empty series has no interval length. *)
Example uptime_empty_series : uptime 1 1 [] = None.
Proof. reflexivity. Qed.

(** Nothing served: the cost divides by zero. *)
Example all_in_system_cost_no_sun : all_in_system_cost 1 1 1 0 1 [0] = None.
Proof. vm_compute. reflexivity. Qed.

(** A baseline cost of zero has no elasticity. *)
Example cost_and_elasticity_zero_baseline :
  (∃ cost, all_in_system_cost 0 0 0 1 1 [1] = Some cost ∧ cost == 0) ∧
  cost_and_elasticity 0 0 0 1 1 [1] = None.
Proof.
  split; [|vm_compute; reflexivity].
  eexists. split; [vm_compute; reflexivity | reflexivity].
Qed.

(** With [load_cost = 0] the initial array size is zero. *)
Example find_minimum_system_cost_zero_load_cost :
  find_minimum_system_cost 1 1 0 [1] half_draws 0 = None.
Proof. vm_compute. reflexivity. Qed.

(** * Further properties of the simulation *)

(** ** When [uptime] returns *)

Lemma uptime_on_empty (capacity load : Q) : uptime capacity load [] = None.
Proof. reflexivity. Qed.

(** X1.  [uptime] raises on the empty series, whatever the capacity and the
    load.  A non-empty series has an interval length [t_interval]; whenever
    [load * t_interval], the only divisor of the loop, is not zero, [uptime]
    returns, and the tuple starts with the capacity and the load it was
    given. *)
Theorem uptime_returns_on_series (capacity load : Q) (sol : list Q) :
  (sol = [] → uptime capacity load sol = None) ∧
  (sol ≠ [] →
     ∃ t, t_interval_of sol = Some t ∧
          (¬ load * t == 0 →
           ∃ r, uptime capacity load sol = Some r ∧
                r.1.1.1 = capacity ∧ r.1.1.2 = load)).
Proof.
  split.
  - intros ->. apply uptime_on_empty.
  - intros Hne. destruct (t_interval_Some sol Hne) as [t Ht].
    exists t. split; [done|]. intros Hlt.
    destruct (uptime_returns capacity load t sol Ht Hlt) as [r Hr].
    exists r. split; [done|]. by apply (uptime_echo _ _ sol).
Qed.

(** The theorem on a night followed by a day, with a negative load. *)
Lemma uptime_returns_on_series_witness :
  ∃ r, uptime 3 (-2) [0; 5] = Some r ∧ r.1.1.1 = 3 ∧ r.1.1.2 = -2.
Proof.
  destruct (proj2 (uptime_returns_on_series 3 (-2) [0; 5])) as (t & Ht & Hret);
    [discriminate|].
  apply Hret. vm_compute in Ht. injection Ht as <-. vm_compute. discriminate.
Defined.

(** ** The arrays hold the trajectory *)

(** The three branches of a round, as [dispatch] has them. *)
Lemma dispatch_cases (capacity load t s b : Q) :
  (load < s →
     dispatch capacity load t s b = (pymin (b + t * (s - load)) capacity, 1)) ∧
  (s <= load → (load - s) * t < b →
     dispatch capacity load t s b = (b - (load - s) * t, 1)) ∧
  (s <= load → b <= (load - s) * t →
     dispatch capacity load t s b = (0, (s * t + b) / (load * t))).
Proof.
  unfold dispatch. case_ltb; [|case_ltb];
    (split; [|split]); intros; try done; exfalso; lra.
Qed.

(** X2.  Whenever the loop of [uptime] returns, it ran with
    [t_interval = 24 * 365 / len(sol)], the arrays have the lengths
    [len(sol) + 1] and [len(sol)], [battery[0]] is the capacity, and for
    every interval [i] the entries [battery[i+1]] and [utilization[i]] are
    what the branch taken at [sol[i]] and [battery[i]] stores: the capped
    sum and [1] when the sample exceeds the load, the difference and [1]
    when the charge exceeds the remaining load, and otherwise [0] and the
    quotient over a [load * t_interval] that is not zero.  [uptime] then
    returns the capacity, the load, [batsum / (len(battery) - 1)] and
    [t_interval * sum(utilization) / (24 * 365)]. *)
Theorem uptime_arrays_are_trajectory (capacity load t : Q) (sol : list Q)
    (st : arrays) :
  uptime_loop capacity load sol = Some (t, st) →
  t_interval_of sol = Some t ∧
  length (battery st) = S (length sol) ∧
  length (utilization st) = length sol ∧
  battery st !! 0%nat = Some capacity ∧
  (∀ i s, sol !! i = Some s →
     ∃ b b' u,
       battery st !! i = Some b ∧ battery st !! S i = Some b' ∧
       utilization st !! i = Some u ∧
       (load < s → b' = pymin (b + t * (s - load)) capacity ∧ u = 1) ∧
       (s <= load → (load - s) * t < b → b' = b - (load - s) * t ∧ u = 1) ∧
       (s <= load → b <= (load - s) * t →
          ¬ load * t == 0 ∧ b' = 0 ∧ u = (s * t + b) / (load * t))) ∧
  uptime capacity load sol =
    Some (capacity, load,
          batsum_of (battery st) / (len (battery st) - 1),
          t * pysum (utilization st) / (24 * 365)).
Proof.
  intros Hrun. pose proof (uptime_of_loop _ _ _ _ _ Hrun) as Hr.
  apply uptime_loop_trajectory in Hrun as (Ht & Hsz & Htr).
  pose proof Hsz as [Hlb Hlu].
  split; [done|]. split; [done|]. split; [done|].
  split; [by destruct Htr|]. split; [|done].
  intros i s Hs.
  destruct (trajectory_at capacity load t sol st i s)
    as (b & Hb & Hb' & Hu & Hd); [done..|].
  destruct (dispatch_cases capacity load t s b) as (H1 & H2 & H3).
  exists b, (dispatch capacity load t s b).1, (dispatch capacity load t s b).2.
  split; [done|]. split; [done|]. split; [done|]. split; [|split].
  - intros Hlt. by rewrite (H1 Hlt).
  - intros Hle Hlt. by rewrite (H2 Hle Hlt).
  - intros Hle Hge. rewrite (H3 Hle Hge). split; [|done].
    apply Hd; by apply Qltb_ge.
Qed.

(** The theorem on a day and a night with a battery of one hour: the night
    drains it. *)
Lemma uptime_arrays_are_trajectory_witness :
  ∃ t st,
    uptime_loop 1 1 [2; 0] = Some (t, st) ∧
    battery st !! 0%nat = Some 1 ∧
    uptime 1 1 [2; 0] =
      Some (1, 1, batsum_of (battery st) / (len (battery st) - 1),
            t * pysum (utilization st) / (24 * 365)).
Proof.
  destruct (uptime_loop 1 1 [2; 0]) as [[t st]|] eqn:E;
    [|vm_compute in E; discriminate].
  destruct (uptime_arrays_are_trajectory 1 1 t [2; 0] st E)
    as (_ & _ & _ & H0 & _ & Hr).
  exists t, st. split; [reflexivity|]. split; [exact H0 | exact Hr].
Defined.

(** ** More sun than load in every interval *)

Lemma batsum_nonpositive (l : list Q) :
  Forall (λ b, b <= 0) l →
  foldl (λ acc b, acc + (if Qltb 0 b then 1 else 0)) 0 l == 0.
Proof.
  induction 1 as [|x l Hx _ IH]; [done|].
  cbn. rewrite batsum_acc, IH.
  assert (Qltb 0 x = false) as -> by (by apply Qltb_ge). lra.
Qed.

Lemma dispatch_surplus (capacity load t s b : Q) :
  load < s → b == capacity → 0 < t →
  Qltb load s = true ∧
  (dispatch capacity load t s b).1 == capacity ∧
  (dispatch capacity load t s b).2 = 1.
Proof.
  intros Hs Hb Ht.
  assert (Qltb load s = true) as E by (by apply Qltb_lt).
  unfold dispatch. rewrite E; cbn. split; [done|]. split; [|done].
  unfold pymin. case_ltb; [done|]. nra.
Qed.

Lemma uptime_loop_surplus (capacity load t : Q) (sol : list Q) :
  Forall (λ s, load < s) sol → t_interval_of sol = Some t →
  ∃ st, uptime_loop capacity load sol = Some (t, st) ∧
    sized (length sol) st ∧
    (filled (λ b, b == capacity) (S (length sol)) (battery st) ∧
     filled (λ u, u = 1) (length sol) (utilization st)).
Proof.
  intros Hsol Ht.
  destruct (t_interval_inv sol t Ht) as (_ & _ & Htpos & _).
  apply (uptime_loop_rule
           (λ i st, filled (λ b, b == capacity) (S i) (battery st) ∧
                    filled (λ u, u = 1) i (utilization st))); [done|..].
  - cbn. split.
    + intros [|j] x Hj; [|lia]. cbn. by intros [= <-].
    + intros j x Hj. lia.
  - intros i a s b Hi Hsz [Hbat Hutil] Hs Hb.
    destruct (dispatch_surplus capacity load t s b) as (E & Hb' & Hu'); try done.
    { by apply (Forall_lookup_1 _ _ _ _ Hsol Hs). }
    { apply (Hbat i); [lia|done]. }
    split; [intros E'; congruence|]. cbn.
    split; by apply filled_insert_next.
Qed.

(** X3.  When every sample exceeds the load, whatever the capacity and the
    load (zero and negative ones too): no round divides and [uptime]
    returns on a non-empty series; every charge of the battery array equals
    the capacity (the [min] caps each sum); every utilization is [1]; the
    served fraction is [t_interval * len(sol) / (24 * 365)] (which is one up
    to rounding); and the battery fraction is one for a positive capacity
    and zero otherwise. *)
Theorem uptime_surplus (capacity load : Q) (sol : list Q) :
  sol ≠ [] → Forall (λ s, load < s) sol →
  ∃ t st r,
    uptime_loop capacity load sol = Some (t, st) ∧
    Forall (λ b, b == capacity) (battery st) ∧
    Forall (λ u, u = 1) (utilization st) ∧
    uptime capacity load sol = Some r ∧
    load_served_fraction r == t * len sol / (24 * 365) ∧
    (0 < capacity → battery_uptime_fraction r == 1) ∧
    (capacity <= 0 → battery_uptime_fraction r == 0).
Proof.
  intros Hne Hsol. destruct (t_interval_Some sol Hne) as [t Ht].
  pose proof (len_pos sol Hne) as Hn.
  destruct (uptime_loop_surplus capacity load t sol)
    as (st & Hrun & [Hlb Hlu] & Hbat & Hutil); try done.
  assert (Forall (λ b, b == capacity) (battery st)) as Hall
    by (apply (filled_all _ _ _ Hbat); lia).
  assert (Forall (λ u, u = 1) (utilization st)) as Hones
    by (apply (filled_all _ _ _ Hutil); lia).
  exists t, st. eexists. split; [done|]. split; [done|]. split; [done|].
  split; [by apply uptime_of_loop|].
  unfold load_served_fraction, battery_uptime_fraction; cbn. split.
  { rewrite pysum_ones, (len_eq _ sol Hlu); [done|].
    apply (Forall_impl _ _ _ Hones). by intros u ->. }
  rewrite (len_sized _ _ Hlb). fold (len sol). unfold batsum_of. split.
  - intros Hc. rewrite batsum_positive, (len_removelast _ _ Hlb).
    + fold (len sol). field. lra.
    + apply Forall_removelast.
      apply (Forall_impl (λ b, b == capacity)); [done|]. by intros b ->.
  - intros Hc. rewrite batsum_nonpositive.
    + field. lra.
    + apply Forall_removelast.
      apply (Forall_impl (λ b, b == capacity)); [done|]. by intros b ->.
Qed.

(** The theorem on a series a fifth above the load, without a battery. *)
Lemma uptime_surplus_witness :
  ∃ t st r,
    uptime_loop 0 1 [6 # 5; 6 # 5; 6 # 5] = Some (t, st) ∧
    Forall (λ u, u = 1) (utilization st) ∧
    uptime 0 1 [6 # 5; 6 # 5; 6 # 5] = Some r ∧
    load_served_fraction r == t * 3 / (24 * 365) ∧
    battery_uptime_fraction r == 0.
Proof.
  assert ([6 # 5; 6 # 5; 6 # 5] ≠ []) as Hne by done.
  assert (Forall (λ s, 1 < s) [6 # 5; 6 # 5; 6 # 5]) as Hsol
    by (repeat constructor; lra).
  destruct (uptime_surplus 0 1 [6 # 5; 6 # 5; 6 # 5] Hne Hsol)
    as (t & st & r & Hrun & _ & Hu & Hr & Hs & _ & Hb).
  exists t, st, r. split; [exact Hrun|]. split; [exact Hu|].
  split; [exact Hr|]. split; [exact Hs|]. apply Hb. lra.
Defined.

(** ** No battery, no battery time *)



(** ** More sun never leaves less charge *)

(** With more sun the next charge is not smaller: the run with more sun
    charges where the other discharges, and has less load left to cover. *)
Lemma dispatch_charge_mono_solar (capacity load t s1 s2 b1 b2 : Q) :
  0 < t → s1 <= s2 → b1 <= b2 → 0 <= b1 → b2 <= capacity →
  (dispatch capacity load t s1 b1).1 <= (dispatch capacity load t s2 b2).1.
Proof.
  intros Ht Hs Hb Hb1 Hb2. unfold dispatch.
  destruct (Qltb load s1) eqn:E1;
    [apply Qltb_lt in E1 | apply Qltb_ge in E1];
  (destruct (Qltb load s2) eqn:E3;
    [apply Qltb_lt in E3 | apply Qltb_ge in E3]); try lra.
  - cbn. apply pymin_mono; nra.
  - assert (b2 <= pymin (b2 + t * (s2 - load)) capacity) as Hup
      by (apply pymin_glb; nra).
    destruct (Qltb ((load - s1) * t) b1) eqn:E2;
      [apply Qltb_lt in E2 | apply Qltb_ge in E2]; cbn; nra.
  - destruct (Qltb ((load - s1) * t) b1) eqn:E2;
      [apply Qltb_lt in E2 | apply Qltb_ge in E2];
    (destruct (Qltb ((load - s2) * t) b2) eqn:E4;
      [apply Qltb_lt in E4 | apply Qltb_ge in E4]); cbn; nra.
Qed.

Lemma dispatch_served_mono_solar (capacity load t s1 s2 b1 b2 : Q) :
  0 < t → s1 <= s2 → b1 <= b2 → load < s1 ∨ (load - s1) * t < b1 →
  (dispatch capacity load t s2 b2).2 = 1.
Proof.
  intros Ht Hs Hb Hfull. unfold dispatch.
  destruct (Qltb load s2) eqn:E1; cbn; [done|].
  apply Qltb_ge in E1.
  assert ((load - s1) * t < b1) as H1 by (destruct Hfull; [lra|done]).
  assert (Qltb ((load - s2) * t) b2 = true) as -> by (apply Qltb_lt; nra).
  done.
Qed.

Lemma t_interval_of_length (sol1 sol2 : list Q) :
  length sol1 = length sol2 → t_interval_of sol1 = t_interval_of sol2.
Proof. intros Hlen. unfold t_interval_of. by rewrite (len_eq _ _ Hlen). Qed.

(** X7.  For a capacity that is not negative, a positive load and two
    series of which the second has at least as much sun in every interval,
    whenever both simulations return: the charges of the second are entry
    by entry at least those of the first, and every interval the first
    serves in full (its sample exceeds the load, or its charge exceeds the
    remaining load) is served in full by the second, which stores the
    utilization [1].  Both return on non-empty series whenever
    [load * t_interval] is not zero. *)
Theorem uptime_monotone_in_solar (capacity load : Q) (sol1 sol2 : list Q) :
  0 <= capacity → 0 < load →
  Forall (λ s, 0 <= s) sol1 → Forall2 Qle sol1 sol2 →
  (∀ t1 st1 t2 st2,
     uptime_loop capacity load sol1 = Some (t1, st1) →
     uptime_loop capacity load sol2 = Some (t2, st2) →
     t1 = t2 ∧
     Forall2 Qle (battery st1) (battery st2) ∧
     (∀ i s1 b1, sol1 !! i = Some s1 → battery st1 !! i = Some b1 →
        load < s1 ∨ (load - s1) * t1 < b1 →
        utilization st2 !! i = Some 1)) ∧
  (sol1 ≠ [] →
     ∃ t, t_interval_of sol1 = Some t ∧
          (¬ load * t == 0 →
           ∃ r1 r2, uptime capacity load sol1 = Some r1 ∧
                    uptime capacity load sol2 = Some r2)).
Proof.
  intros Hc _ _ Hle. pose proof (Forall2_length _ _ _ Hle) as Hlen.
  pose proof (t_interval_of_length _ _ Hlen) as Hteq. split.
  - intros t1 st1 t2 st2 (Ht1 & Hsz1 & Htr1)%uptime_loop_trajectory
                         (Ht2 & Hsz2 & Htr2)%uptime_loop_trajectory.
    assert (t2 = t1) as -> by congruence.
    destruct (t_interval_inv sol1 t1 Ht1) as (_ & _ & Htpos & _).
    assert (Forall2 (λ b1 b2, b1 <= b2 ∧ 0 <= b1 ∧ b2 <= capacity)
              (battery st1) (battery st2)) as Hbat.
    { apply (trajectory_charges_rel _ capacity load capacity load t1 sol1 sol2);
        try done; [lra|].
      intros i s1 s2 b1 b2 Hs1 Hs2 (Hb & Hb1 & Hb2).
      pose proof (Forall2_lookup_lr _ _ _ _ _ _ Hle Hs1 Hs2) as Hs.
      split; [by apply dispatch_charge_mono_solar|].
      split; [apply dispatch_charge_bounds | apply dispatch_charge_bounds];
        try done; lra. }
    split; [done|]. split.
    { apply (Forall2_impl _ _ _ _ Hbat). by intros b1 b2 [? _]. }
    intros i s1 b1 Hs1 Hb1 Hfull.
    destruct (lookup_lt_is_Some_2 sol2 i) as [s2 Hs2].
    { rewrite <- Hlen. by apply lookup_lt_Some in Hs1. }
    destruct (trajectory_at capacity load t1 sol2 st2 i s2)
      as (b2 & Hb2 & _ & Hu2 & _); [done..|].
    destruct (Forall2_lookup_lr _ _ _ _ _ _ Hbat Hb1 Hb2) as [Hb _].
    pose proof (Forall2_lookup_lr _ _ _ _ _ _ Hle Hs1 Hs2) as Hs.
    by rewrite Hu2, (dispatch_served_mono_solar capacity load t1 s1 s2 b1 b2).
  - intros Hne. destruct (t_interval_Some sol1 Hne) as [t Ht].
    exists t. split; [done|]. intros Hlt.
    destruct (uptime_returns capacity load t sol1 Ht Hlt) as [r1 Hr1].
    rewrite Hteq in Ht.
    destruct (uptime_returns capacity load t sol2 Ht Hlt) as [r2 Hr2].
    by exists r1, r2.
Qed.

(** The theorem on an overcast day against a clear one. *)
Lemma uptime_monotone_in_solar_witness :
  ∃ t st1 st2,
    uptime_loop 1 1 [1 # 2; 0] = Some (t, st1) ∧
    uptime_loop 1 1 [3; 0] = Some (t, st2) ∧
    Forall2 Qle (battery st1) (battery st2).
Proof.
  assert (0 <= 1) as Hc by lra.
  assert (0 < 1) as Hl by lra.
  assert (Forall (λ s, 0 <= s) [1 # 2; 0]) as Hsol by (repeat constructor; lra).
  assert (Forall2 Qle [1 # 2; 0] [3; 0]) as Hle by (repeat constructor; lra).
  destruct (uptime_monotone_in_solar 1 1 [1 # 2; 0] [3; 0] Hc Hl Hsol Hle)
    as [Hloop _].
  destruct (uptime_loop 1 1 [1 # 2; 0]) as [[t1 st1]|] eqn:E1;
    [|vm_compute in E1; discriminate].
  destruct (uptime_loop 1 1 [3; 0]) as [[t2 st2]|] eqn:E2;
    [|vm_compute in E2; discriminate].
  destruct (Hloop t1 st1 t2 st2 eq_refl eq_refl) as (<- & Hbat & _).
  exists t1, st1, st2. split; [reflexivity|]. split; [reflexivity|]. exact Hbat.
Defined.

(** ** A larger load never leaves more charge *)

Lemma dispatch_charge_antitone_load (capacity l1 l2 t s b1 b2 : Q) :
  0 < t → l1 <= l2 → b2 <= b1 → 0 <= b2 → b1 <= capacity →
  (dispatch capacity l2 t s b2).1 <= (dispatch capacity l1 t s b1).1.
Proof.
  intros Ht Hl Hb Hb2 Hb1. unfold dispatch.
  destruct (Qltb l2 s) eqn:E3;
    [apply Qltb_lt in E3 | apply Qltb_ge in E3];
  (destruct (Qltb l1 s) eqn:E1;
    [apply Qltb_lt in E1 | apply Qltb_ge in E1]); try lra.
  - cbn. apply pymin_mono; nra.
  - assert (b1 <= pymin (b1 + t * (s - l1)) capacity) as Hup
      by (apply pymin_glb; nra).
    destruct (Qltb ((l2 - s) * t) b2) eqn:E4;
      [apply Qltb_lt in E4 | apply Qltb_ge in E4]; cbn; nra.
  - destruct (Qltb ((l2 - s) * t) b2) eqn:E4;
      [apply Qltb_lt in E4 | apply Qltb_ge in E4];
    (destruct (Qltb ((l1 - s) * t) b1) eqn:E2;
      [apply Qltb_lt in E2 | apply Qltb_ge in E2]); cbn; nra.
Qed.

Lemma dispatch_served_antitone_load (capacity l1 l2 t s b1 b2 : Q) :
  0 < t → l1 <= l2 → b2 <= b1 → l2 < s ∨ (l2 - s) * t < b2 →
  (dispatch capacity l1 t s b1).2 = 1.
Proof.
  intros Ht Hl Hb Hfull. unfold dispatch.
  destruct (Qltb l1 s) eqn:E1; cbn; [done|].
  apply Qltb_ge in E1.
  assert ((l2 - s) * t < b2) as H2 by (destruct Hfull; [lra|done]).
  assert (Qltb ((l1 - s) * t) b1 = true) as -> by (apply Qltb_lt; nra).
  done.
Qed.

(** X8.  For a capacity that is not negative, samples that are not negative
    and loads [0 < l1 <= l2], whenever both simulations return: the charges
    under the load [l2] are entry by entry at most those under [l1], and
    every interval served in full under [l2] (its sample exceeds [l2], or
    its charge exceeds the remaining load) is served in full under [l1],
    which stores the utilization [1].  Both return on a non-empty series
    whenever neither [l1 * t_interval] nor [l2 * t_interval] is zero. *)
Theorem uptime_antitone_in_load (capacity l1 l2 : Q) (sol : list Q) :
  0 <= capacity → 0 < l1 → l1 <= l2 → Forall (λ s, 0 <= s) sol →
  (∀ t1 st1 t2 st2,
     uptime_loop capacity l1 sol = Some (t1, st1) →
     uptime_loop capacity l2 sol = Some (t2, st2) →
     t1 = t2 ∧
     Forall2 Qle (battery st2) (battery st1) ∧
     (∀ i s b2, sol !! i = Some s → battery st2 !! i = Some b2 →
        l2 < s ∨ (l2 - s) * t2 < b2 →
        utilization st1 !! i = Some 1)) ∧
  (sol ≠ [] →
     ∃ t, t_interval_of sol = Some t ∧
          (¬ l1 * t == 0 → ¬ l2 * t == 0 →
           ∃ r1 r2, uptime capacity l1 sol = Some r1 ∧
                    uptime capacity l2 sol = Some r2)).
Proof.
  intros Hc _ Hl _. split.
  - intros t1 st1 t2 st2 (Ht1 & Hsz1 & Htr1)%uptime_loop_trajectory
                         (Ht2 & Hsz2 & Htr2)%uptime_loop_trajectory.
    assert (t2 = t1) as -> by congruence.
    destruct (t_interval_inv sol t1 Ht1) as (_ & _ & Htpos & _).
    assert (Forall2 (λ b2 b1, b2 <= b1 ∧ 0 <= b2 ∧ b1 <= capacity)
              (battery st2) (battery st1)) as Hbat.
    { apply (trajectory_charges_rel _ capacity l2 capacity l1 t1 sol sol);
        try done; [lra|].
      intros i s s' b2 b1 Hs Hs' (Hb & Hb2 & Hb1).
      replace s' with s by congruence.
      split; [by apply dispatch_charge_antitone_load|].
      split; [apply dispatch_charge_bounds | apply dispatch_charge_bounds];
        try done; lra. }
    split; [done|]. split.
    { apply (Forall2_impl _ _ _ _ Hbat). by intros b2 b1 [? _]. }
    intros i s b2 Hs Hb2 Hfull.
    destruct (trajectory_at capacity l1 t1 sol st1 i s)
      as (b1 & Hb1 & _ & Hu1 & _); [done..|].
    destruct (Forall2_lookup_lr _ _ _ _ _ _ Hbat Hb2 Hb1) as [Hb _].
    by rewrite Hu1, (dispatch_served_antitone_load capacity l1 l2 t1 s b1 b2).
  - intros Hne. destruct (t_interval_Some sol Hne) as [t Ht].
    exists t. split; [done|]. intros Hlt1 Hlt2.
    destruct (uptime_returns capacity l1 t sol Ht Hlt1) as [r1 Hr1].
    destruct (uptime_returns capacity l2 t sol Ht Hlt2) as [r2 Hr2].
    by exists r1, r2.
Qed.

(** The theorem on a load doubled. *)
Lemma uptime_antitone_in_load_witness :
  ∃ t st1 st2,
    uptime_loop 1 1 [1; 0] = Some (t, st1) ∧
    uptime_loop 1 2 [1; 0] = Some (t, st2) ∧
    Forall2 Qle (battery st2) (battery st1).
Proof.
  assert (0 <= 1) as Hc by lra.
  assert (0 < 1) as Hl1 by lra.
  assert (1 <= 2) as Hl by lra.
  assert (Forall (λ s, 0 <= s) [1; 0]) as Hsol by (repeat constructor; lra).
  destruct (uptime_antitone_in_load 1 1 2 [1; 0] Hc Hl1 Hl Hsol) as [Hloop _].
  destruct (uptime_loop 1 1 [1; 0]) as [[t1 st1]|] eqn:E1;
    [|vm_compute in E1; discriminate].
  destruct (uptime_loop 1 2 [1; 0]) as [[t2 st2]|] eqn:E2;
    [|vm_compute in E2; discriminate].
  destruct (Hloop t1 st1 t2 st2 eq_refl eq_refl) as (<- & Hbat & _).
  exists t1, st1, st2. split; [reflexivity|]. split; [reflexivity|]. exact Hbat.
Defined.

(** * Further properties of the search *)

(** ** The best cost is the least cost seen *)

Lemma search_loop_S_inv (solar_cost battery_cost load_cost : Q) (sol : list Q)
    (rnd : nat → Q) (pos k : nat) (s : search) :
  search_loop solar_cost battery_cost load_cost sol rnd pos (S k) = Some s →
  ∃ sk, search_loop solar_cost battery_cost load_cost sol rnd pos k = Some sk ∧
        search_body solar_cost battery_cost load_cost
          (initial_amplitude load_cost) sol rnd k sk = Some s.
Proof.
  unfold search_loop. replace (S k) with (k + 1)%nat by lia.
  rewrite for_range_split.
  destruct (for_range 0 k _ _) as [sk|]; cbn [mbind option_bind for_range];
    [|done].
  intros Hs. exists sk. split; [done|].
  destruct (search_body _ _ _ _ _ _ _ sk) as [s'|]; cbn in Hs; [|done].
  by injection Hs as ->.
Qed.

(** X13.  After any number of rounds the tracked best cost is at most
    [10**10] and at most every cost the rounds so far have evaluated at
    their candidate sizes: the search keeps the least cost seen. *)
Theorem search_keeps_least_cost (solar_cost battery_cost load_cost : Q)
    (sol : list Q) (rnd : nat → Q) (pos k : nat) (s : search) :
  search_loop solar_cost battery_cost load_cost sol rnd pos k = Some s →
  cost_min s <= 10 ^ 10 ∧
  ∀ j sj cj, (j < k)%nat →
    search_loop solar_cost battery_cost load_cost sol rnd pos j = Some sj →
    all_in_system_cost solar_cost battery_cost load_cost (bi sj) (ai sj) sol
      = Some cj →
    cost_min s <= cj.
Proof.
  revert s. induction k as [|k IH]; intros s Hs.
  - injection Hs as <-. cbn [search_init cost_min]. split; [lra|]. intros; lia.
  - apply search_loop_S_inv in Hs as (sk & Hsk & Hbody).
    destruct (IH sk Hsk) as [Hcap Hleast].
    apply search_body_inv in Hbody
      as (c & cb & ca & db & da & Hce & _ & _ & _ & Hmin).
    apply cost_and_elasticity_iff in Hce as (Hc & _).
    assert (cost_min s <= cost_min sk ∧ cost_min s <= c) as [Hdown Hc'].
    { destruct Hmin as [(E & -> & _)|(E & -> & _)].
      - apply Qltb_lt in E. lra.
      - apply Qltb_ge in E. lra. }
    split; [lra|]. intros j sj cj Hj Hsj Hcj.
    destruct (decide (j = k)) as [->|Hne].
    + replace sj with sk in * by congruence.
      replace cj with c by congruence. done.
    + specialize (Hleast j sj cj). assert (j < k)%nat as Hjk by lia.
      specialize (Hleast Hjk Hsj Hcj). lra.
Qed.

(** The theorem on the run that settles at the two clamps: the best after
    three rounds is at most the cost of the first candidate. *)
Lemma search_keeps_least_cost_witness :
  ∃ s s0 c0,
    search_loop 1000000 1000000 5000 [200] half_draws 0 3 = Some s ∧
    search_loop 1000000 1000000 5000 [200] half_draws 0 0 = Some s0 ∧
    all_in_system_cost 1000000 1000000 5000 (bi s0) (ai s0) [200] = Some c0 ∧
    cost_min s <= c0.
Proof.
  destruct (search_loop 1000000 1000000 5000 [200] half_draws 0 3)
    as [s|] eqn:Hs; [|vm_compute in Hs; discriminate].
  destruct (all_in_system_cost 1000000 1000000 5000
              (bi (search_init 5000 0)) (ai (search_init 5000 0)) [200])
    as [c0|] eqn:Hc0; [|vm_compute in Hc0; discriminate].
  destruct (search_keeps_least_cost _ _ _ _ _ _ _ _ Hs) as [_ Hleast].
  exists s, (search_init 5000 0), c0.
  split; [reflexivity|]. split; [reflexivity|]. split; [exact Hc0|].
  apply (Hleast 0%nat (search_init 5000 0) c0); [lia|reflexivity|exact Hc0].
Defined.

(** ** The best sizes are sizes the search tried *)

(** X14.  After at least one round, the best sizes are the candidate sizes
    of one of the rounds so far; and when the tracked best cost is below
    [10**10], it is exactly the cost [all_in_system_cost] gives at the best
    sizes. *)
Theorem search_best_was_tried (solar_cost battery_cost load_cost : Q)
    (sol : list Q) (rnd : nat → Q) (pos k : nat) (s : search) :
  (1 ≤ k)%nat →
  search_loop solar_cost battery_cost load_cost sol rnd pos k = Some s →
  (∃ j sj, (j < k)%nat ∧
     search_loop solar_cost battery_cost load_cost sol rnd pos j = Some sj ∧
     bi_min s = bi sj ∧ ai_min s = ai sj) ∧
  (cost_min s < 10 ^ 10 →
     all_in_system_cost solar_cost battery_cost load_cost
       (bi_min s) (ai_min s) sol = Some (cost_min s)).
Proof.
  intros Hk. revert s. induction k as [|k IH]; [lia|]. intros s Hs.
  apply search_loop_S_inv in Hs as (sk & Hsk & Hbody).
  apply search_body_inv in Hbody
    as (c & cb & ca & db & da & Hce & _ & _ & _ & Hmin).
  apply cost_and_elasticity_iff in Hce as (Hc & _).
  destruct Hmin as [(E & -> & -> & ->)|(E & -> & -> & ->)].
  - split; [|done]. exists k, sk. split; [lia|done].
  - destruct k as [|k].
    + injection Hsk as <-. cbn [search_init bi_min ai_min cost_min bi ai].
      split.
      * exists 0%nat, (search_init load_cost pos). split; [lia|done].
      * intros Hlt. exfalso. by apply (Qlt_irrefl (10 ^ 10)).
    + destruct (IH ltac:(lia) sk Hsk) as [(j & sj & Hj & Hsj & Hb & Ha) Hcost].
      split; [|done]. exists j, sj. split; [lia|done].
Qed.

(** The theorem on the run that settles at the two clamps: after a hundred
    rounds the best cost is the cost at the best sizes. *)
Lemma search_best_was_tried_witness :
  ∃ s, search_loop 1000000 1000000 5000 [200] half_draws 0 100 = Some s ∧
       all_in_system_cost 1000000 1000000 5000 (bi_min s) (ai_min s) [200]
         = Some (cost_min s).
Proof.
  destruct (search_loop 1000000 1000000 5000 [200] half_draws 0 100)
    as [s|] eqn:Hs; [|vm_compute in Hs; discriminate].
  assert (1 ≤ 100)%nat as Hk by lia.
  destruct (search_best_was_tried _ _ _ _ _ _ _ _ Hk Hs) as [_ Hcost].
  exists s. split; [reflexivity|]. apply Hcost.
  vm_compute in Hs. injection Hs as <-. vm_compute. reflexivity.
Defined.

(** ** Without a load cost the search cannot start *)

Lemma for_range_first_fails {S : Type} (body : nat → S → option S)
    (lo n : nat) (s : S) :
  body lo s = None → for_range lo (Datatypes.S n) body s = None.
Proof. intros H. cbn [for_range]. by rewrite H. Qed.

Lemma initial_size_zero (load_cost : Q) :
  load_cost == 0 → initial_size load_cost == 0.
Proof.
  intros Hlc. unfold initial_size, pymin.
  assert (10 * load_cost / 5e6 == 0) as H0 by (rewrite Hlc; reflexivity).
  case_ltb; lra.
Qed.

(** X15.  With [load_cost = 0] both initial sizes are
    [min(10, 10 * 0 / 5e6) = 0], and the first cost evaluation divides by
    the array size: [find_minimum_system_cost] raises, whatever the other
    costs, the series and the draws. *)
Theorem find_minimum_needs_load_cost (solar_cost battery_cost load_cost : Q)
    (sol : list Q) (rnd : nat → Q) (pos : nat) :
  load_cost == 0 →
  find_minimum_system_cost solar_cost battery_cost load_cost sol rnd pos = None.
Proof.
  intros Hlc. pose proof (initial_size_zero load_cost Hlc) as Ha.
  unfold find_minimum_system_cost, search_loop.
  rewrite for_range_first_fails; [done|].
  unfold search_body, cost_and_elasticity, all_in_system_cost.
  cbn [search_init bi ai].
  by rewrite (pydiv_zero (initial_size load_cost) _ Ha).
Qed.

(** The theorem at a load cost written as [0 / 7]. *)
Lemma find_minimum_needs_load_cost_witness :
  find_minimum_system_cost 3 2 (0 # 7) [1; 1] half_draws 0 = None.
Proof.
  assert (0 # 7 == 0) as Hlc by reflexivity.
  exact (find_minimum_needs_load_cost 3 2 (0 # 7) [1; 1] half_draws 0 Hlc).
Defined.

(** ** The report makes sense *)

Lemma search_loop_best_sizes (solar_cost battery_cost load_cost : Q)
    (sol : list Q) (rnd : nat → Q) (pos k : nat) (s : search) :
  0 < load_cost →
  search_loop solar_cost battery_cost load_cost sol rnd pos k = Some s →
  0 <= bi s ∧ 0 < ai s ∧ 0 <= bi_min s ∧ 0 < ai_min s.
Proof.
  intros Hlc Hrun. unfold search_loop in Hrun.
  apply (for_range_partial _
           (λ _ a, 0 <= bi a ∧ 0 < ai a ∧ 0 <= bi_min a ∧ 0 < ai_min a))
    in Hrun; [done|..].
  - pose proof (initial_size_positive load_cost Hlc).
    cbn [search_init bi ai bi_min ai_min]. lra.
  - intros i a a' _ (Hb & Ha & Hbm & Ham) Hbody.
    apply search_body_inv in Hbody
      as (c & cb & ca & db & da & _ & -> & -> & _ & Hmin).
    pose proof (pymax_ge_l 0 (bi a + initial_amplitude load_cost
                  * (0.1 + (1 - 0.1) * rnd (draws a)) * db)).
    pose proof (pymax_ge_l 0.01 (ai a + initial_amplitude load_cost
                  * (0.1 + (1 - 0.1) * rnd (S (draws a))) * da)).
    destruct Hmin as [(_ & _ & -> & ->)|(_ & _ & -> & ->)]; lra.
Qed.

(** X16.  For costs that are not negative and a positive [load_cost],
    every report [find_minimum_system_cost] returns starts with the three
    costs it was given, has a positive best array size, a best battery size
    that is not negative and the load size one; its cost breakdown is
    [solar_cost * ai_min], [battery_cost * bi_min] and [load_cost], and the
    total cost, their sum, is positive. *)
Theorem find_minimum_report_sensible (solar_cost battery_cost load_cost : Q)
    (sol : list Q) (rnd : nat → Q) (pos pos' : nat) (r : report) :
  0 <= solar_cost → 0 <= battery_cost → 0 < load_cost →
  find_minimum_system_cost solar_cost battery_cost load_cost sol rnd pos
    = Some (r, pos') →
  inputs r = (solar_cost, battery_cost, load_cost) ∧
  0 < (best_sizes r).1.1 ∧ 0 <= (best_sizes r).1.2 ∧ (best_sizes r).2 = 1 ∧
  cost_breakdown r =
    (solar_cost * (best_sizes r).1.1, battery_cost * (best_sizes r).1.2,
     load_cost) ∧
  (totals r).1.2 =
    solar_cost * (best_sizes r).1.1 + battery_cost * (best_sizes r).1.2
    + load_cost ∧
  0 < (totals r).1.2.
Proof.
  intros Hsc Hbc Hlc
    (s & Hrun & _ & _ & _ & _ & Hin & Hsz & Hbd & Htot)%find_minimum_system_cost_inv.
  destruct (search_loop_best_sizes _ _ _ _ _ _ _ _ Hlc Hrun)
    as (_ & _ & Hbm & Ham).
  rewrite Hin, Hsz, Hbd, Htot. cbn.
  split; [done|]. split; [done|]. split; [done|]. split; [done|].
  split; [done|]. split; [done|]. nra.
Qed.

(** The theorem on the run that settles at the two clamps. *)
Lemma find_minimum_report_sensible_witness :
  ∃ r p, find_minimum_system_cost 1000000 1000000 5000 [200] half_draws 0
           = Some (r, p) ∧
         0 < (best_sizes r).1.1 ∧ 0 < (totals r).1.2.
Proof.
  destruct (find_minimum_system_cost 1000000 1000000 5000 [200] half_draws 0)
    as [[r p]|] eqn:E; [|vm_compute in E; discriminate].
  destruct (find_minimum_report_sensible 1000000 1000000 5000 [200]
              half_draws 0 p r) as (_ & Ha & _ & _ & _ & _ & Hpos); try lra.
  - exact E.
  - exists r, p. exact (conj eq_refl (conj Ha Hpos)).
Defined.
(** ** Where the search starts *)


(** * The code as it runs, at the inputs above

    The binary64 reading evaluated where the worded claims fail: what the
    theorems above state survives there. *)

(** The charges of [uptime(87.6, 0.8, [0.79])] stay within the capacity, and
    the battery fraction is one. *)
Example b64_charges_in_range :
  ∃ t st r,
    B64.uptime_loop 87.6 0.8 [0.79%float] = Some (t, st) ∧
    forallb (λ b, (0 <=? b) && (b <=? 87.6))%float (B64.battery st) = true ∧
    B64.uptime 87.6 0.8 [0.79%float] = Some r ∧
    (B64.battery_uptime_fraction r =? 1)%float = true.
Proof.
  eexists _, _, _. split; [vm_compute; reflexivity|].
  split; [vm_compute; reflexivity|]. split; vm_compute; reflexivity.
Qed.

(** Without a battery the utilization stored is the quotient of the third
    branch. *)
Example b64_no_battery_quotient :
  ∃ t st,
    B64.uptime_loop 0 0.3 [0.1%float] = Some (t, st) ∧
    B64.battery st = [0; 0]%float ∧
    B64.utilization st = [(0.1 * t + 0) / (0.3 * t)]%float.
Proof.
  eexists _, _. split; [vm_compute; reflexivity|]. split; vm_compute; reflexivity.
Qed.

(** On 539 samples equal to the load every utilization is one and the
    served fraction is [t_interval * 539 / (24 * 365)]. *)
Example b64_constant_at_load :
  ∃ t st r,
    B64.uptime_loop 1 1 (replicate 539 1%float) = Some (t, st) ∧
    forallb (λ u, u =? 1)%float (B64.utilization st) = true ∧
    B64.uptime 1 1 (replicate 539 1%float) = Some r ∧
    B64.load_served_fraction r = (t * 539 / (24 * 365))%float.
Proof.
  eexists _, _, _. split; [vm_compute; reflexivity|].
  split; [vm_compute; reflexivity|]. split; vm_compute; reflexivity.
Qed.

(** The larger battery holds at least as much in every entry. *)
Example b64_larger_battery :
  ∃ t st1 st2,
    B64.uptime_loop 87.6 0.8 [0.79%float] = Some (t, st1) ∧
    B64.uptime_loop 88.6 0.8 [0.79%float] = Some (t, st2) ∧
    forallb (λ p, p.1 <=? p.2)%float
      (zip (B64.battery st1) (B64.battery st2)) = true.
Proof.
  eexists _, _, _. split; [vm_compute; reflexivity|].
  split; vm_compute; reflexivity.
Qed.

(** The search at [load_cost = 1010] on [[1e6]]: the cost of the initial
    sizes does not beat the tracked best cost, which is the cost at the best
    sizes. *)
Example b64_search_best :
  ∃ s cost0,
    B64.search_loop 0 0 1010 [1e6%float] B64.half_draws 0 100 = Some s ∧
    B64.all_in_system_cost 0 0 1010
      (B64.initial_size 1010) (B64.initial_size 1010) [1e6%float] = Some cost0 ∧
    (cost0 <? B64.cost_min s)%float = false ∧
    B64.all_in_system_cost 0 0 1010 (B64.bi_min s) (B64.ai_min s) [1e6%float]
      = Some (B64.cost_min s).
Proof.
  eexists _, _. split; [vm_compute; reflexivity|].
  split; [vm_compute; reflexivity|]. split; vm_compute; reflexivity.
Qed.

(** Underflow.  At [load = 5e-324] on a dark series of 17520 half hours,
    [t_interval] is [0.5], [load * t_interval] rounds to zero and the third
    branch raises. *)
Example b64_underflow_raises :
  (∃ t, B64.t_interval_of (replicate 17520 0%float) = Some t ∧
        (5e-324 * t =? 0)%float = true) ∧
  B64.uptime 0 5e-324 (replicate 17520 0%float) = None.
Proof.
  split; [eexists; split; vm_compute; reflexivity | vm_compute; reflexivity].
Qed.
